(** * pgdummy: the [pgaudit.log] check and assign hooks

    A shallow embedding of [src/pgdummy.c]: the GUC check hook
    [check_pgaudit_log], which turns a comma-separated list of class names
    into a bitmap held in a freshly allocated [int], and the assign hook
    [assign_pgaudit_log], which copies that bitmap into the static
    [auditLogBitmap]; and [_PG_init], which defines the two custom variables
    of the module.

    The two hooks call into the PostgreSQL backend and the C library
    ([pstrdup], [SplitIdentifierString], [pg_strcasecmp], [malloc], [free],
    [GUC_check_errdetail]).  Those are embedded in [Module Host] after their
    PostgreSQL and C definitions, for a backend with a single-byte encoding
    running in the "C" locale. *)

From Equations Require Import Equations.
From stdpp Require Import gmap strings.
From Stdlib Require Import ZArith Ascii String Lia.

Local Open Scope Z_scope.

(** ** Bytes and C strings *)

Module Host.

(** [(unsigned char) c]. *)
Definition uchar (c : ascii) : Z := Z.of_N (N_of_ascii c).

(** The byte of a value in [0, 255]. *)
Definition to_char (z : Z) : ascii := ascii_of_N (Z.to_N z).

(** [*p] for a pointer into a C string: the byte under the pointer, which is
    the terminating NUL at the end of the text. *)
Definition deref (p : string) : ascii :=
  match p with
  | String c _ => c
  | EmptyString => Ascii.zero
  end.

(** The double quote, byte 34. *)
Definition dquote : ascii := Ascii false true false false false true false false.

(** [p + 1]. *)
Definition advance (p : string) : string :=
  match p with
  | String _ r => r
  | EmptyString => EmptyString
  end.

(** [pstrdup]: a copy of the text up to the terminating NUL.  A Rocq string
    may hold a NUL byte; the C string it denotes ends there. *)
Fixpoint pstrdup (s : string) : string :=
  match s with
  | String c r => if Ascii.eqb c Ascii.zero then EmptyString else String c (pstrdup r)
  | EmptyString => EmptyString
  end.

(** [<ctype.h>] in the "C" locale. *)
Definition ctype_isspace (c : ascii) : bool :=
  (uchar c =? 32) || ((9 <=? uchar c) && (uchar c <=? 13)).

Definition ctype_isupper (c : ascii) : bool :=
  (uchar "A" <=? uchar c) && (uchar c <=? uchar "Z").

Definition ctype_tolower (c : ascii) : ascii :=
  if ctype_isupper c then to_char (uchar c + (uchar "a" - uchar "A")) else c.

(** [IS_HIGHBIT_SET(ch)]: [(unsigned char) ch & 0x80]. *)
Definition IS_HIGHBIT_SET (c : ascii) : bool := Z.testbit (uchar c) 7.

(** The case folding both [pg_strcasecmp] and [downcase_truncate_identifier]
    apply to one byte: ASCII upper case by arithmetic, bytes with the high bit
    set through the locale. *)
Definition fold_case (ch : ascii) : ascii :=
  if (uchar "A" <=? uchar ch) && (uchar ch <=? uchar "Z")
  then to_char (uchar ch + (uchar "a" - uchar "A"))
  else if IS_HIGHBIT_SET ch && ctype_isupper ch then ctype_tolower ch
  else ch.

(** [pg_strcasecmp] of [src/port/pgstrcasecmp.c]: bytes are folded only when
    they differ, the loop ends at the first difference or at the NUL of
    [s1]. *)
Fixpoint pg_strcasecmp (s1 s2 : string) : Z :=
  let ch1 := deref s1 in
  let ch2 := deref s2 in
  let '(ch1, ch2) :=
    if Ascii.eqb ch1 ch2 then (ch1, ch2) else (fold_case ch1, fold_case ch2) in
  if negb (Ascii.eqb ch1 ch2) then uchar ch1 - uchar ch2
  else if Ascii.eqb ch1 Ascii.zero then 0
  else match s1 with
       | String _ r1 => pg_strcasecmp r1 (advance s2)
       | EmptyString => 0
       end.

(** ** [SplitIdentifierString] of [utils/adt/varlena.c] *)

Definition NAMEDATALEN : nat := 64.

(** [truncate_identifier]: a name of [NAMEDATALEN] bytes or more is cut to
    [NAMEDATALEN - 1] bytes. *)
Definition truncate_identifier (ident : string) : string :=
  if (NAMEDATALEN <=? String.length ident)%nat
  then substring 0 (NAMEDATALEN - 1) ident
  else ident.

Fixpoint downcase (ident : string) : string :=
  match ident with
  | String ch r => String (fold_case ch) (downcase r)
  | EmptyString => EmptyString
  end.

Definition downcase_truncate_identifier (ident : string) : string :=
  truncate_identifier (downcase ident).

(** Skipping white space at [nextp]. *)
Fixpoint skip_space (nextp : string) : string :=
  match nextp with
  | String c r => if ctype_isspace c then skip_space r else nextp
  | EmptyString => nextp
  end.

(** The unquoted name at [nextp]: it extends to the separator, to white space
    or to the end of the text.  Returns the name and the text after it. *)
Fixpoint scan_unquoted (separator : ascii) (nextp : string) : string * string :=
  match nextp with
  | String c r =>
      if Ascii.eqb c separator || ctype_isspace c then (EmptyString, nextp)
      else let '(name, rest) := scan_unquoted separator r in (String c name, rest)
  | EmptyString => (EmptyString, nextp)
  end.

(** The quoted name whose opening quote has just been passed: it extends to the
    next quote that is not doubled, and a doubled quote stands for one quote.
    [None] when the closing quote is missing. *)
Fixpoint scan_quoted (p : string) : option (string * string) :=
  match p with
  | String c r =>
      if Ascii.eqb c dquote then
        match r with
        | String d r' =>
            if Ascii.eqb d dquote then
              match scan_quoted r' with
              | Some (name, rest) => Some (String dquote name, rest)
              | None => None
              end
            else Some (EmptyString, r)
        | EmptyString => Some (EmptyString, r)
        end
      else
        match scan_quoted r with
        | Some (name, rest) => Some (String c name, rest)
        | None => None
        end
  | EmptyString => None
  end.

(** One name of the list, at the top of the loop of [SplitIdentifierString]:
    quoted names are taken as they are, unquoted names must not be empty and
    are downcased. *)
Definition scan_name (separator : ascii) (nextp : string) : option (string * string) :=
  if Ascii.eqb (deref nextp) dquote then scan_quoted (advance nextp)
  else
    let '(curname, rest) := scan_unquoted separator nextp in
    match curname with
    | EmptyString => None
    | _ => Some (downcase_truncate_identifier curname, rest)
    end.

Lemma skip_space_length (s : string) :
  (String.length (skip_space s) <= String.length s)%nat.
Proof.
  induction s as [|c r IH]; simpl; [lia|].
  destruct (ctype_isspace c); simpl; lia.
Qed.

Lemma scan_unquoted_length (sep : ascii) (s name rest : string) :
  scan_unquoted sep s = (name, rest) ->
  (String.length name + String.length rest = String.length s)%nat.
Proof.
  revert name rest. induction s as [|c r IH]; simpl; intros name rest H.
  - inversion H; reflexivity.
  - destruct (Ascii.eqb c sep || ctype_isspace c).
    + inversion H; reflexivity.
    + destruct (scan_unquoted sep r) as [n' r'] eqn:E.
      inversion H; subst. simpl. specialize (IH _ _ eq_refl). lia.
Qed.

Lemma scan_quoted_length_bounded (n : nat) (s name rest : string) :
  (String.length s <= n)%nat ->
  scan_quoted s = Some (name, rest) ->
  (String.length rest < String.length s)%nat.
Proof.
  revert s name rest. induction n as [|n IH]; intros s name rest Hn H.
  - destruct s; [discriminate H | simpl in Hn; lia].
  - destruct s as [|c r]; [discriminate H|]. simpl in H, Hn.
    destruct (Ascii.eqb c dquote).
    + destruct r as [|d r'].
      * inversion H; subst. simpl. lia.
      * destruct (Ascii.eqb d dquote).
        -- destruct (scan_quoted r') as [[n' q']|] eqn:E; [|discriminate].
           inversion H; subst. apply IH in E; simpl in *; lia.
        -- inversion H; subst. simpl. lia.
    + destruct (scan_quoted r) as [[n' q']|] eqn:E; [|discriminate].
      inversion H; subst. apply IH in E; simpl; lia.
Qed.

Lemma scan_name_length (sep : ascii) (s name rest : string) :
  scan_name sep s = Some (name, rest) ->
  (String.length rest < String.length s)%nat.
Proof.
  unfold scan_name. intros H.
  destruct (Ascii.eqb (deref s) dquote) eqn:Hq.
  - destruct s as [|c r]; [discriminate Hq|]. simpl in H.
    apply (scan_quoted_length_bounded (String.length r)) in H; simpl; lia.
  - destruct (scan_unquoted sep s) as [cur rest'] eqn:E.
    apply scan_unquoted_length in E.
    destruct cur; [discriminate|]. inversion H; subst. simpl in E. lia.
Qed.

Definition inspect {A : Type} (a : A) : {b : A | a = b} := exist _ a eq_refl.

(** The [do ... while (!done)] loop, entered with [nextp] at the start of a
    name.  After the name and the white space behind it comes the separator
    (then another name is expected) or the end of the text; anything else is
    a syntax error.  [None] is the [false] of the C function. *)
Equations? split_names (separator : ascii) (nextp : string) : option (list string)
  by wf (String.length nextp) lt :=
  split_names separator nextp with inspect (scan_name separator nextp) := {
    | exist _ None _ => None
    | exist _ (Some (curname, rest)) Hname with inspect (skip_space rest) := {
        | exist _ EmptyString _ => Some [truncate_identifier curname]
        | exist _ (String c r) Hrest =>
            if Ascii.eqb c separator
            then match split_names separator (skip_space r) with
                 | Some names => Some (truncate_identifier curname :: names)
                 | None => None
                 end
            else None } }.
Proof.
  apply scan_name_length in Hname.
  pose proof (skip_space_length rest) as H1. rewrite Hrest in H1.
  pose proof (skip_space_length r) as H2. simpl in H1. lia.
Qed.

(** [SplitIdentifierString(rawstring, separator, &namelist)]: [Some namelist]
    when it returns [true].  Leading white space is skipped; when the text
    ends there the function returns [true] at once, with [namelist] still
    [NIL] (its own comment: allow empty string).  When it returns [false] the
    caller only frees the list, which is therefore not kept. *)
Definition SplitIdentifierString (rawstring : string) (separator : ascii)
  : option (list string) :=
  match skip_space rawstring with
  | EmptyString => Some []
  | nextp => split_names separator nextp
  end.

End Host.

Import Host.

(** ** The process state the hooks run in *)

(** A pointer to a [malloc]ed [int]: [None] is [NULL]. *)
Definition ptr : Type := option positive.

Definition NULL : ptr := None.

(** The file's statics ([auditLogBitmap], [auditLog], [auditLogCatalog]), the
    [malloc] heap of [int] cells (a cell holds [None] until it is first
    written), whether the allocator can serve the next request, and the detail
    message of the GUC machinery that [GUC_check_errdetail] sets. *)
Record World : Type := mkWorld {
  auditLogBitmap : Z;
  auditLog : option string;
  auditLogCatalog : bool;
  heap : gmap positive (option Z);
  malloc_ok : bool;
  GUC_check_errdetail_string : option string
}.

Definition set_auditLogBitmap (v : Z) (w : World) : World :=
  mkWorld v (auditLog w) (auditLogCatalog w) (heap w) (malloc_ok w)
    (GUC_check_errdetail_string w).

Definition set_heap (h : gmap positive (option Z)) (w : World) : World :=
  mkWorld (auditLogBitmap w) (auditLog w) (auditLogCatalog w) h (malloc_ok w)
    (GUC_check_errdetail_string w).

Definition set_errdetail (d : option string) (w : World) : World :=
  mkWorld (auditLogBitmap w) (auditLog w) (auditLogCatalog w) (heap w)
    (malloc_ok w) d.

(** A computation on the world; [None] is undefined behaviour (an access
    through a pointer that is not live, a read of a cell never written). *)
Definition M (A : Type) : Type := World -> option (A * World).

#[export] Instance M_ret : MRet M := fun A (a : A) (w : World) => Some (a, w).

#[export] Instance M_bind : MBind M :=
  fun A B (f : A -> M B) (m : M A) (w : World) =>
    match m w with
    | Some (a, w') => f a w'
    | None => None
    end.

(** [malloc(sizeof(int))]: [NULL] when the allocator fails, else a cell that
    was not live, with indeterminate content. *)
Definition malloc_int : M ptr := fun w =>
  if malloc_ok w
  then let p := fresh (dom (heap w)) in
       Some (Some p, set_heap (<[p := None]> (heap w)) w)
  else Some (NULL, w).

Definition free (p : positive) : M unit := fun w =>
  match heap w !! p with
  | Some _ => Some (tt, set_heap (delete p (heap w)) w)
  | None => None
  end.

(** [*p] as a value. *)
Definition load (p : positive) : M Z := fun w =>
  match heap w !! p with
  | Some (Some v) => Some (v, w)
  | _ => None
  end.

(** [*p = v]. *)
Definition store (p : positive) (v : Z) : M unit := fun w =>
  match heap w !! p with
  | Some _ => Some (tt, set_heap (<[p := Some v]> (heap w)) w)
  | None => None
  end.

Definition GUC_check_errdetail (msg : string) : M unit := fun w =>
  Some (tt, set_errdetail (Some msg) w).

(** [auditLogBitmap = v]. *)
Definition assign_auditLogBitmap (v : Z) : M unit := fun w =>
  Some (tt, set_auditLogBitmap v w).

(** ** [src/pgdummy.c] *)

Definition CLASS_DDL : string := "DDL".
Definition CLASS_FUNCTION : string := "FUNCTION".
Definition CLASS_MISC : string := "MISC".
Definition CLASS_MISC_SET : string := "MISC_SET".
Definition CLASS_READ : string := "READ".
Definition CLASS_ROLE : string := "ROLE".
Definition CLASS_WRITE : string := "WRITE".
Definition CLASS_NONE : string := "NONE".
Definition CLASS_ALL : string := "ALL".

Definition LOG_DDL : Z := Z.shiftl 1 0.
Definition LOG_FUNCTION : Z := Z.shiftl 1 1.
Definition LOG_MISC : Z := Z.shiftl 1 2.
Definition LOG_READ : Z := Z.shiftl 1 3.
Definition LOG_ROLE : Z := Z.shiftl 1 4.
Definition LOG_WRITE : Z := Z.shiftl 1 5.
Definition LOG_MISC_SET : Z := Z.shiftl 1 6.
Definition LOG_NONE : Z := 0.
Definition LOG_ALL : Z := 0xFFFFFFFF.

(** Conversion to the 32-bit [int]: [LOG_ALL] is an [unsigned int] constant
    and [class] is an [int]. *)
Definition to_int (z : Z) : Z := (z + 2 ^ 31) mod 2 ^ 32 - 2 ^ 31.

(** The statics' initialisers. *)
Definition initial_world : World :=
  mkWorld LOG_NONE None true ∅ true None.

(** The chain of [pg_strcasecmp] tests of the loop body: the value of [class],
    or [None] in the final [else]. *)
Definition class_of_token (token : string) : option Z :=
  if pg_strcasecmp token CLASS_NONE =? 0 then Some LOG_NONE
  else if pg_strcasecmp token CLASS_ALL =? 0 then Some (to_int LOG_ALL)
  else if pg_strcasecmp token CLASS_DDL =? 0 then Some LOG_DDL
  else if pg_strcasecmp token CLASS_FUNCTION =? 0 then Some LOG_FUNCTION
  else if pg_strcasecmp token CLASS_MISC =? 0 then Some (Z.lor LOG_MISC LOG_MISC_SET)
  else if pg_strcasecmp token CLASS_MISC_SET =? 0 then Some LOG_MISC_SET
  else if pg_strcasecmp token CLASS_READ =? 0 then Some LOG_READ
  else if pg_strcasecmp token CLASS_ROLE =? 0 then Some LOG_ROLE
  else if pg_strcasecmp token CLASS_WRITE =? 0 then Some LOG_WRITE
  else None.

(** [token[0] == '-']: the token is subtractive. *)
Definition subtractive (token : string) : bool := Ascii.eqb (deref token) "-".

(** The token the tests see: past the marker ([token++]) when there is one. *)
Definition class_text (token : string) : string :=
  if subtractive token then advance token else token.

(** The [foreach] loop over [flagRawList], with [flags] live.  It returns
    [false] when the body returned from the function (after [free(flags)])
    and [true] when the list was exhausted. *)
Fixpoint foreach_token (flags : positive) (flagRawList : list string) : M bool :=
  match flagRawList with
  | [] => mret true
  | token :: lt =>
      let subtract := subtractive token in
      match class_of_token (class_text token) with
      | Some class =>
          f ← load flags;
          store flags (if subtract then Z.land f (Z.lnot class) else Z.lor f class);;
          foreach_token flags lt
      | None =>
          free flags;;
          mret false
      end
  end.

(** [check_pgaudit_log(newVal, extra, source)].  [extra] is the content of
    [*extra] at the call; the result is the returned [bool] and the content
    of [*extra] at the return.  [source] is not used by the function.
    [rawVal] and [flagRawList] live in [palloc]ed memory that the function
    releases itself; they are values here, and an out-of-memory error raised
    by [palloc] is not part of the embedding. *)
Definition check_pgaudit_log (newVal : string) (extra : ptr) : M (bool * ptr) :=
  let rawVal := pstrdup newVal in
  match SplitIdentifierString rawVal "," with
  | None =>
      GUC_check_errdetail "List syntax is invalid";;
      mret (false, extra)
  | Some flagRawList =>
      flags ← malloc_int;
      match flags with
      | None => mret (false, extra)
      | Some flags =>
          store flags 0;;
          finished ← foreach_token flags flagRawList;
          if finished : bool then mret (true, Some flags) else mret (false, extra)
      end
  end.

(** [assign_pgaudit_log(newVal, extra)]. *)
Definition assign_pgaudit_log (newVal : string) (extra : ptr) : M unit :=
  match extra with
  | Some p =>
      v ← load p;
      assign_auditLogBitmap v
  | None => mret tt
  end.

(** ** The fold the hook computes, as the specification words it *)

(** One directive folded into the accumulator: [accumulator |= bits] when it
    is additive, [accumulator &= ~bits] when it is subtractive; no accumulator
    once a token is unrecognised. *)
Definition fold_directive (accumulator : option Z) (token : string) : option Z :=
  match accumulator, class_of_token (class_text token) with
  | Some acc, Some bits =>
      Some (if subtractive token then Z.land acc (Z.lnot bits) else Z.lor acc bits)
  | _, _ => None
  end.

(** The left-to-right fold of the tokens from the accumulator [acc]. *)
Definition fold_directives (acc : Z) (tokens : list string) : option Z :=
  fold_left fold_directive tokens (Some acc).

(** The cell [malloc] hands out in [w]. *)
Definition candidate_cell (w : World) : positive := fresh (dom (heap w)).

(** The hook returned [true]: [*extra] points to a new cell that holds [v],
    nothing else changed. *)
Definition accepted (w : World) (v : Z) : option (bool * ptr * World) :=
  Some (true, Some (candidate_cell w),
        set_heap (<[candidate_cell w := Some v]> (heap w)) w).

(** The hook returned [false] and left the world as [w']. *)
Definition rejected (extra : ptr) (w' : World) : option (bool * ptr * World) :=
  Some (false, extra, w').

(** ** Spellings *)

(** The text the chain of [pg_strcasecmp] tests sees of a token: its bytes up
    to the NUL, folded. *)
Definition canon (s : string) : string := downcase (pstrdup s).

(** [s] spells [name] up to the case of its ASCII letters. *)
Definition case_variant (s name : string) : Prop := downcase s = downcase name.

(** A byte that neither ends an unquoted name nor opens a quoted one. *)
Definition name_byte (c : ascii) : bool :=
  negb (Ascii.eqb c ",") && negb (ctype_isspace c)
  && negb (Ascii.eqb c dquote) && negb (Ascii.eqb c Ascii.zero).

(** A bare word: at least one byte, all of them [name_byte]s. *)
Fixpoint name_bytes (s : string) : bool :=
  match s with
  | String c r => name_byte c && name_bytes r
  | EmptyString => true
  end.

Definition bare_word (s : string) : bool :=
  match s with
  | String _ _ => name_bytes s
  | EmptyString => false
  end.

(** The nine names the hook recognises. *)
Definition class_names : list string :=
  [CLASS_NONE; CLASS_ALL; CLASS_DDL; CLASS_FUNCTION; CLASS_MISC;
   CLASS_MISC_SET; CLASS_READ; CLASS_ROLE; CLASS_WRITE].

(** ** Module load: [_PG_init] *)

(** The level, the error code and the GUC constants of the backend that
    [_PG_init] passes. *)
Inductive ErrorLevel : Type := ERROR.

(** SQLSTATE 55000. *)
Definition ERRCODE_OBJECT_NOT_IN_PREREQUISITE_STATE : string := "55000".

Inductive GucContext : Type := PGC_SUSET.

Inductive GucFlag : Type := GUC_LIST_INPUT | GUC_NOT_IN_SAMPLE.

(** The arguments of one [DefineCustomStringVariable] call.  [valueAddr] is
    kept as the reader of the static it points to; a null hook is [None]. *)
Record config_string : Type := mk_config_string {
  string_name : string;
  string_short_desc : string;
  string_long_desc : option string;
  string_variable : World -> option string;
  string_boot_val : string;
  string_context : GucContext;
  string_flags : list GucFlag;
  string_check_hook : option (string -> ptr -> M (bool * ptr));
  string_assign_hook : option (string -> ptr -> M unit);
  string_show_hook : option (unit -> string)
}.

(** The arguments of one [DefineCustomBoolVariable] call. *)
Record config_bool : Type := mk_config_bool {
  bool_name : string;
  bool_short_desc : string;
  bool_long_desc : option string;
  bool_variable : World -> bool;
  bool_boot_val : bool;
  bool_context : GucContext;
  bool_flags : list GucFlag;
  bool_check_hook : option (bool -> ptr -> M (bool * ptr));
  bool_assign_hook : option (bool -> ptr -> M unit);
  bool_show_hook : option (unit -> string)
}.

Inductive config_generic : Type :=
| ConfigString (conf : config_string)
| ConfigBool (conf : config_bool).

(** The backend as [_PG_init] sees it: the function's own
    [static bool inited], the backend's
    [process_shared_preload_libraries_in_progress], and the custom variables
    defined so far, in the order of the calls.  What the backend does with a
    definition (it initialises the variable from its boot value through the
    hooks, in a [World]) is its own business and is not embedded. *)
Record Backend : Type := mkBackend {
  inited : bool;
  process_shared_preload_libraries_in_progress : bool;
  custom_variables : list config_generic
}.

(** A call returns, or leaves through [ereport(ERROR, ...)]. *)
Inductive Outcome : Type :=
| Returned (b : Backend)
| Raised (elevel : ErrorLevel) (sqlerrcode : string) (message : string) (b : Backend).

Definition define_custom_variable (conf : config_generic) (b : Backend) : Backend :=
  mkBackend (inited b) (process_shared_preload_libraries_in_progress b)
    (custom_variables b ++ [conf]).

Definition set_inited (v : bool) (b : Backend) : Backend :=
  mkBackend v (process_shared_preload_libraries_in_progress b)
    (custom_variables b).

(** The definition of [pgaudit.log]. *)
Definition pgaudit_log_variable : config_string :=
  mk_config_string
    "pgaudit.log"
    ("Specifies which classes of statements will be logged by session audit "
     ++ "logging. Multiple classes can be provided using a comma-separated "
     ++ "list and classes can be subtracted by prefacing the class with a "
     ++ "- sign.")
    None
    auditLog
    "none"
    PGC_SUSET
    [GUC_LIST_INPUT; GUC_NOT_IN_SAMPLE]
    (Some check_pgaudit_log)
    (Some assign_pgaudit_log)
    None.

(** The definition of [pgaudit.log_catalog]. *)
Definition pgaudit_log_catalog_variable : config_bool :=
  mk_config_bool
    "pgaudit.log_catalog"
    ("Specifies that session logging should be enabled in the case where "
     ++ "all relations in a statement are in pg_catalog.  Disabling this "
     ++ "setting will reduce noise in the log from tools like psql and PgAdmin "
     ++ "that query the catalog heavily.")
    None
    auditLogCatalog
    true
    PGC_SUSET
    [GUC_NOT_IN_SAMPLE]
    None
    None
    None.

(** [_PG_init()]. *)
Definition _PG_init (b : Backend) : Outcome :=
  if inited b then Returned b
  else if negb (process_shared_preload_libraries_in_progress b) then
    Raised ERROR ERRCODE_OBJECT_NOT_IN_PREREQUISITE_STATE
      "pgaudit must be loaded via shared_preload_libraries" b
  else
    let b := define_custom_variable (ConfigString pgaudit_log_variable) b in
    let b := define_custom_variable (ConfigBool pgaudit_log_catalog_variable) b in
    Returned (set_inited true b).

(** ** Vocabulary of the further properties *)

(** The token, past its marker, is one of the nine names. *)
Definition known_token (token : string) : Prop :=
  class_of_token (class_text token) <> None.

(** The class each name stands for. *)
Definition class_table : list (string * Z) :=
  [(CLASS_NONE, LOG_NONE); (CLASS_ALL, to_int LOG_ALL); (CLASS_DDL, LOG_DDL);
   (CLASS_FUNCTION, LOG_FUNCTION); (CLASS_MISC, Z.lor LOG_MISC LOG_MISC_SET);
   (CLASS_MISC_SET, LOG_MISC_SET); (CLASS_READ, LOG_READ);
   (CLASS_ROLE, LOG_ROLE); (CLASS_WRITE, LOG_WRITE)].

(** A text of white space only. *)
Fixpoint blank (s : string) : bool :=
  match s with
  | String c r => ctype_isspace c && blank r
  | EmptyString => true
  end.

(** The 256 integers from -128 to 127. *)
Definition small_ints : list Z := map (fun n : nat => Z.of_nat n - 128) (seq 0 256).

Definition in_small_range (a : Z) : bool := (-128 <=? a) && (a <? 128).

(** ** Proofs *)

Lemma set_heap_id (w : World) : set_heap (heap w) w = w.
Proof. destruct w; reflexivity. Qed.

Lemma set_heap_set_heap (h h' : gmap positive (option Z)) (w : World) :
  set_heap h (set_heap h' w) = set_heap h w.
Proof. reflexivity. Qed.

Lemma candidate_cell_fresh (w : World) : heap w !! candidate_cell w = None.
Proof.
  unfold candidate_cell. apply (not_elem_of_dom (D := gset positive)).
  apply (is_fresh (dom (heap w))).
Qed.

Lemma fold_left_directive_None (tokens : list string) :
  fold_left fold_directive tokens None = None.
Proof. induction tokens as [|t l IH]; simpl; auto. Qed.

(** The loop computes the fold in the cell [flags], and frees the cell when
    the fold has no value. *)
Lemma foreach_token_fold (tokens : list string) (flags : positive) (v : Z) (w : World) :
  heap w !! flags = Some (Some v) ->
  foreach_token flags tokens w =
    match fold_directives v tokens with
    | Some v' => Some (true, set_heap (<[flags := Some v']> (heap w)) w)
    | None => Some (false, set_heap (delete flags (heap w)) w)
    end.
Proof.
  revert v w. induction tokens as [|token lt IH]; intros v w Hcell.
  - cbn. rewrite insert_id by exact Hcell. rewrite set_heap_id. reflexivity.
  - unfold fold_directives. cbn [foreach_token fold_left fold_directive].
    destruct (class_of_token (class_text token)) as [class|].
    + unfold mbind, M_bind, load, store. rewrite Hcell. cbn [heap set_heap].
      rewrite Hcell.
      set (v1 := if subtractive token then Z.land v (Z.lnot class) else Z.lor v class).
      rewrite (IH v1) by (cbn [heap set_heap]; apply lookup_insert_eq).
      unfold fold_directives. cbn [heap set_heap].
      destruct (fold_left _ _ _);
        rewrite ?insert_insert_eq, ?delete_insert_eq; reflexivity.
    + rewrite fold_left_directive_None.
      unfold mbind, M_bind, free, mret, M_ret. rewrite Hcell. reflexivity.
Qed.

(** What the hook returns, in terms of the token list and of the fold. *)
Lemma check_pgaudit_log_fold (newVal : string) (extra : ptr) (w : World) :
  check_pgaudit_log newVal extra w =
    match SplitIdentifierString (pstrdup newVal) "," with
    | None => rejected extra (set_errdetail (Some "List syntax is invalid"%string) w)
    | Some tokens =>
        if malloc_ok w then
          match fold_directives 0 tokens with
          | Some v => accepted w v
          | None => rejected extra w
          end
        else rejected extra w
    end.
Proof.
  unfold check_pgaudit_log.
  destruct (SplitIdentifierString (pstrdup newVal) ",") as [tokens|]; [|reflexivity].
  unfold mbind at 1. unfold M_bind, malloc_int.
  destruct (malloc_ok w) eqn:Hm; [|reflexivity].
  fold (candidate_cell w).
  unfold mbind, M_bind, store. cbn [heap set_heap].
  rewrite lookup_insert_eq. cbn [heap set_heap].
  rewrite insert_insert_eq.
  rewrite (foreach_token_fold tokens _ 0) by (cbn [heap set_heap]; apply lookup_insert_eq).
  cbn [heap set_heap].
  destruct (fold_directives 0 tokens) as [v|].
  - rewrite insert_insert_eq. reflexivity.
  - rewrite delete_insert_eq, delete_id by apply candidate_cell_fresh.
    rewrite !set_heap_set_heap, set_heap_id. reflexivity.
Qed.

(** Evaluates the hook on a literal setting: the token list and the fold are
    computed, the world stays symbolic. *)
Ltac eval_check :=
  rewrite check_pgaudit_log_fold;
  match goal with
  | |- context [SplitIdentifierString ?s ?c] =>
      let r := eval vm_compute in (SplitIdentifierString s c) in
      replace (SplitIdentifierString s c) with r by (vm_compute; reflexivity)
  end;
  cbv iota beta;
  repeat match goal with
  | H : malloc_ok _ = _ |- _ => rewrite H
  | |- context [fold_directives ?a ?l] =>
      let r := eval vm_compute in (fold_directives a l) in
      replace (fold_directives a l) with r by (vm_compute; reflexivity)
  end;
  cbv iota beta.

(** The bit of each class. *)
Lemma shiftl_1_testbit (k i : Z) :
  0 <= k -> Z.testbit (Z.shiftl 1 k) i = (k =? i).
Proof. intros Hk. rewrite Z.shiftl_1_l. apply Z.pow2_bits_eqb, Hk. Qed.

(** ** The hooks and the live configuration *)

(** C1, as amended: on the empty setting the check hook does not fail.
    [SplitIdentifierString] accepts the empty text with no token, the loop
    body never runs, and the hook returns [true] with a candidate equal to
    [LOG_NONE]; it returns [false] only when [malloc] fails. *)
Theorem check_pgaudit_log_empty (extra : ptr) (w : World) :
  check_pgaudit_log "" extra w =
    if malloc_ok w then accepted w LOG_NONE else rejected extra w.
Proof. eval_check. reflexivity. Qed.

(** C1, the claim as stated fails: in the initial world the hook does not
    return [false] on the empty setting. *)
Lemma check_pgaudit_log_empty_not_rejected :
  ~ (exists extra' w',
       check_pgaudit_log "" NULL initial_world = Some (false, extra', w')).
Proof.
  intros (extra' & w' & H).
  assert (Hrun : check_pgaudit_log "" NULL initial_world
                 = accepted initial_world LOG_NONE) by (vm_compute; reflexivity).
  rewrite Hrun in H. discriminate H.
Qed.

(** C2: the check hook always returns, and the statics [auditLogBitmap],
    [auditLog] and [auditLogCatalog] are then what they were at the call, on
    the list-syntax path, the [malloc] failure path, the unknown-token path
    and the success path alike. *)
Theorem check_pgaudit_log_preserves_statics (newVal : string) (extra : ptr) (w : World) :
  exists (ok : bool) (extra' : ptr) (w' : World),
    check_pgaudit_log newVal extra w = Some (ok, extra', w')
    /\ auditLogBitmap w' = auditLogBitmap w
    /\ auditLog w' = auditLog w
    /\ auditLogCatalog w' = auditLogCatalog w.
Proof.
  rewrite check_pgaudit_log_fold.
  destruct (SplitIdentifierString (pstrdup newVal) ",") as [tokens|].
  - destruct (malloc_ok w); [destruct (fold_directives 0 tokens)|];
      unfold accepted, rejected; do 3 eexists; (split; [reflexivity|]);
      repeat split; reflexivity.
  - unfold rejected; do 3 eexists; (split; [reflexivity|]);
      repeat split; reflexivity.
Qed.

Lemma assign_pgaudit_log_commit_cell
    (newVal : string) (p : positive) (v : Z) (w : World) :
  heap w !! p = Some (Some v) ->
  assign_pgaudit_log newVal (Some p) w = Some (tt, set_auditLogBitmap v w).
Proof.
  intros Hp. unfold assign_pgaudit_log, mbind, M_bind, load.
  rewrite Hp. reflexivity.
Qed.

(** The world the assign hook returns in, field by field: [auditLogBitmap]
    holds the value of the cell, every other field is what it was. *)
Lemma assign_pgaudit_log_commit_fields
    (newVal : string) (p : positive) (v : Z) (w : World) :
  heap w !! p = Some (Some v) ->
  exists w' : World,
    assign_pgaudit_log newVal (Some p) w = Some (tt, w')
    /\ auditLogBitmap w' = v
    /\ auditLog w' = auditLog w
    /\ auditLogCatalog w' = auditLogCatalog w
    /\ heap w' = heap w
    /\ malloc_ok w' = malloc_ok w
    /\ GUC_check_errdetail_string w' = GUC_check_errdetail_string w.
Proof.
  intros Hp. exists (set_auditLogBitmap v w).
  split; [apply assign_pgaudit_log_commit_cell, Hp|].
  repeat split; reflexivity.
Qed.

(** C3: the assign hook with [extra] pointing to a cell that holds [v]
    returns, and [auditLogBitmap] is then [v] while every other field of the
    world (the other statics, the heap, the detail message) is what it was;
    with a null [extra] it returns and changes nothing. *)
Theorem assign_pgaudit_log_commits (newVal : string) (w : World) :
  assign_pgaudit_log newVal NULL w = Some (tt, w)
  /\ (forall (p : positive) (v : Z),
        heap w !! p = Some (Some v) ->
        exists w' : World,
          assign_pgaudit_log newVal (Some p) w = Some (tt, w')
          /\ auditLogBitmap w' = v
          /\ auditLog w' = auditLog w
          /\ auditLogCatalog w' = auditLogCatalog w
          /\ heap w' = heap w
          /\ malloc_ok w' = malloc_ok w
          /\ GUC_check_errdetail_string w' = GUC_check_errdetail_string w).
Proof.
  split; [reflexivity|].
  intros p v Hp. apply assign_pgaudit_log_commit_fields, Hp.
Qed.

Lemma assign_pgaudit_log_commits_witness :
  let w := mkWorld LOG_READ (Some "read"%string) true
             {[ 1%positive := Some LOG_WRITE ]} true None in
  heap w !! 1%positive = Some (Some LOG_WRITE)
  /\ auditLogBitmap w = LOG_READ
  /\ (exists w' : World,
        assign_pgaudit_log "write" (Some 1%positive) w = Some (tt, w')
        /\ auditLogBitmap w' = LOG_WRITE
        /\ auditLog w' = auditLog w
        /\ auditLogCatalog w' = auditLogCatalog w
        /\ heap w' = heap w
        /\ malloc_ok w' = malloc_ok w
        /\ GUC_check_errdetail_string w' = GUC_check_errdetail_string w)
  /\ assign_pgaudit_log "write" NULL w = Some (tt, w).
Proof.
  intros w.
  assert (Hcell : heap w !! 1%positive = Some (Some LOG_WRITE)) by reflexivity.
  split; [exact Hcell|]. split; [reflexivity|].
  split.
  - exact (proj2 (assign_pgaudit_log_commits "write" w) 1%positive LOG_WRITE Hcell).
  - exact (proj1 (assign_pgaudit_log_commits "write" w)).
Defined.

(** C4: with [malloc] succeeding, the candidate is the left-to-right fold of
    the tokens from zero, whatever the tokens; on [READ,WRITE,-READ] it is
    the bit of WRITE alone, although READ was added first, and the same
    three tokens in another order give another value. *)
Theorem check_pgaudit_log_left_to_right :
  (forall (newVal : string) (extra : ptr) (w : World) (tokens : list string),
     SplitIdentifierString (pstrdup newVal) "," = Some tokens ->
     malloc_ok w = true ->
     check_pgaudit_log newVal extra w =
       match fold_left fold_directive tokens (Some LOG_NONE) with
       | Some v => accepted w v
       | None => rejected extra w
       end)
  /\ (forall (extra : ptr) (w : World),
        malloc_ok w = true ->
        check_pgaudit_log "READ,WRITE,-READ" extra w = accepted w LOG_WRITE)
  /\ (forall (extra : ptr) (w : World),
        malloc_ok w = true ->
        check_pgaudit_log "-READ,READ,WRITE" extra w
          = accepted w (Z.lor LOG_READ LOG_WRITE)).
Proof.
  split; [|split].
  - intros newVal extra w tokens Hsplit Hm.
    rewrite check_pgaudit_log_fold, Hsplit, Hm. reflexivity.
  - intros extra w Hm. eval_check. reflexivity.
  - intros extra w Hm. eval_check. reflexivity.
Qed.

Lemma check_pgaudit_log_left_to_right_witness :
  malloc_ok initial_world = true
  /\ SplitIdentifierString (pstrdup "READ,WRITE,-READ") ","
       = Some ["read"; "write"; "-read"]%string
  /\ check_pgaudit_log "READ,WRITE,-READ" NULL initial_world
       = accepted initial_world LOG_WRITE
  /\ check_pgaudit_log "READ,WRITE,-READ" NULL initial_world
       = match fold_left fold_directive ["read"; "write"; "-read"]%string (Some LOG_NONE) with
         | Some v => accepted initial_world v
         | None => rejected NULL initial_world
         end.
Proof.
  assert (Hm : malloc_ok initial_world = true) by reflexivity.
  assert (Hs : SplitIdentifierString (pstrdup "READ,WRITE,-READ") ","
               = Some ["read"; "write"; "-read"]%string) by (vm_compute; reflexivity).
  split; [exact Hm|]. split; [exact Hs|]. split.
  - exact (proj1 (proj2 check_pgaudit_log_left_to_right) NULL initial_world Hm).
  - exact (proj1 check_pgaudit_log_left_to_right "READ,WRITE,-READ" NULL
             initial_world _ Hs Hm).
Defined.

(** ** Unknown tokens *)

Lemma fold_directives_unknown (tokens : list string) (acc : Z) :
  Exists (fun token => class_of_token (class_text token) = None) tokens ->
  fold_directives acc tokens = None.
Proof.
  unfold fold_directives. intros Hex. revert acc.
  induction Hex as [token lt Hunknown | token lt Hex IH]; intros acc; simpl.
  - rewrite Hunknown. apply fold_left_directive_None.
  - destruct (class_of_token (class_text token)) as [bits|].
    + apply IH.
    + apply fold_left_directive_None.
Qed.

(** C5, as amended: when the setting splits into tokens one of which, past
    its marker, matches none of the nine names, the hook returns [false],
    leaves [*extra] as it was and leaves the whole world as it was: the cell
    of the partial bitmap is freed and no detail message is set, so the
    offending token is not reported by the hook. *)
Theorem check_pgaudit_log_unknown_token
    (newVal : string) (extra : ptr) (w : World) (tokens : list string) :
  SplitIdentifierString (pstrdup newVal) "," = Some tokens ->
  Exists (fun token => class_of_token (class_text token) = None) tokens ->
  check_pgaudit_log newVal extra w = rejected extra w.
Proof.
  intros Hsplit Hex. rewrite check_pgaudit_log_fold, Hsplit.
  rewrite (fold_directives_unknown tokens 0 Hex).
  destruct (malloc_ok w); reflexivity.
Qed.

Lemma check_pgaudit_log_unknown_token_witness :
  SplitIdentifierString (pstrdup "read,-bogus,write") ","
    = Some ["read"; "-bogus"; "write"]%string
  /\ Exists (fun token => class_of_token (class_text token) = None)
       ["read"; "-bogus"; "write"]%string
  /\ check_pgaudit_log "read,-bogus,write" NULL initial_world
       = rejected NULL initial_world.
Proof.
  assert (Hs : SplitIdentifierString (pstrdup "read,-bogus,write") ","
               = Some ["read"; "-bogus"; "write"]%string) by (vm_compute; reflexivity).
  assert (Hex : Exists (fun token => class_of_token (class_text token) = None)
                  ["read"; "-bogus"; "write"]%string).
  { apply Exists_cons_tl, Exists_cons_hd. vm_compute. reflexivity. }
  split; [exact Hs|]. split; [exact Hex|].
  exact (check_pgaudit_log_unknown_token "read,-bogus,write" NULL initial_world
           _ Hs Hex).
Defined.

(** C5, the claim as stated fails: after the hook has rejected [bogus] there
    is no detail message, hence no report of the token. *)
Lemma check_pgaudit_log_unknown_token_unreported :
  ~ (exists (r : bool * ptr) (w' : World) (detail : string),
       check_pgaudit_log "bogus" NULL initial_world = Some (r, w')
       /\ GUC_check_errdetail_string w' = Some detail).
Proof.
  intros (r & w' & detail & Hrun & Hdetail).
  assert (Hw : check_pgaudit_log "bogus" NULL initial_world
               = rejected NULL initial_world) by (vm_compute; reflexivity).
  rewrite Hw in Hrun. unfold rejected in Hrun.
  inversion Hrun; subst w'. discriminate Hdetail.
Qed.

(** ** The class table *)

(** C6: [MISC] gives the bits of MISC and MISC_SET (bits 2 and 6) and no
    other, [MISC_SET] gives bit 6 alone, and each of the other class names
    resolves to one bit. *)
Theorem check_pgaudit_log_misc :
  (forall (extra : ptr) (w : World),
     malloc_ok w = true ->
     check_pgaudit_log "MISC" extra w = accepted w (Z.lor LOG_MISC LOG_MISC_SET)
     /\ check_pgaudit_log "MISC_SET" extra w = accepted w LOG_MISC_SET)
  /\ (forall i : Z,
        Z.testbit (Z.lor LOG_MISC LOG_MISC_SET) i = (2 =? i) || (6 =? i))
  /\ (forall i : Z, Z.testbit LOG_MISC_SET i = (6 =? i))
  /\ class_of_token CLASS_MISC = Some (Z.lor LOG_MISC LOG_MISC_SET)
  /\ (forall (name : string) (bits : Z),
        In (name, bits)
           [(CLASS_DDL, LOG_DDL); (CLASS_FUNCTION, LOG_FUNCTION);
            (CLASS_MISC_SET, LOG_MISC_SET); (CLASS_READ, LOG_READ);
            (CLASS_ROLE, LOG_ROLE); (CLASS_WRITE, LOG_WRITE)] ->
        class_of_token name = Some bits
        /\ exists k : Z, 0 <= k < 32 /\ forall i : Z, Z.testbit bits i = (k =? i)).
Proof.
  split; [|split; [|split; [|split]]].
  - intros extra w Hm. split; eval_check; reflexivity.
  - intros i. unfold LOG_MISC, LOG_MISC_SET.
    rewrite Z.lor_spec, !shiftl_1_testbit by lia. reflexivity.
  - intros i. apply shiftl_1_testbit. lia.
  - vm_compute. reflexivity.
  - intros name bits Hin. simpl in Hin.
    repeat (destruct Hin as [Heq | Hin];
            [inversion Heq; subst name bits; split; [vm_compute; reflexivity|]|]);
      try contradiction.
    + exists 0; split; [lia|intros i; apply shiftl_1_testbit; lia].
    + exists 1; split; [lia|intros i; apply shiftl_1_testbit; lia].
    + exists 6; split; [lia|intros i; apply shiftl_1_testbit; lia].
    + exists 3; split; [lia|intros i; apply shiftl_1_testbit; lia].
    + exists 4; split; [lia|intros i; apply shiftl_1_testbit; lia].
    + exists 5; split; [lia|intros i; apply shiftl_1_testbit; lia].
Qed.

Lemma check_pgaudit_log_misc_witness :
  malloc_ok initial_world = true
  /\ check_pgaudit_log "MISC" NULL initial_world
       = accepted initial_world (Z.lor LOG_MISC LOG_MISC_SET)
  /\ check_pgaudit_log "MISC_SET" NULL initial_world
       = accepted initial_world LOG_MISC_SET
  /\ In (CLASS_READ, LOG_READ)
        [(CLASS_DDL, LOG_DDL); (CLASS_FUNCTION, LOG_FUNCTION);
         (CLASS_MISC_SET, LOG_MISC_SET); (CLASS_READ, LOG_READ);
         (CLASS_ROLE, LOG_ROLE); (CLASS_WRITE, LOG_WRITE)]
  /\ class_of_token CLASS_READ = Some LOG_READ.
Proof.
  assert (Hm : malloc_ok initial_world = true) by reflexivity.
  assert (Hin : In (CLASS_READ, LOG_READ)
        [(CLASS_DDL, LOG_DDL); (CLASS_FUNCTION, LOG_FUNCTION);
         (CLASS_MISC_SET, LOG_MISC_SET); (CLASS_READ, LOG_READ);
         (CLASS_ROLE, LOG_ROLE); (CLASS_WRITE, LOG_WRITE)])
    by (simpl; tauto).
  split; [exact Hm|].
  split; [exact (proj1 (proj1 check_pgaudit_log_misc NULL initial_world Hm))|].
  split; [exact (proj2 (proj1 check_pgaudit_log_misc NULL initial_world Hm))|].
  split; [exact Hin|].
  exact (proj1 (proj2 (proj2 (proj2 (proj2 check_pgaudit_log_misc)))
                  CLASS_READ LOG_READ Hin)).
Defined.

(** C7: [ALL] gives the value with every bit set ([LOG_ALL] as an [int],
    that is -1), [NONE] gives zero, and [ALL,-WRITE] gives every bit but
    bit 5, the bit of WRITE. *)
Theorem check_pgaudit_log_meta :
  (forall (extra : ptr) (w : World),
     malloc_ok w = true ->
     check_pgaudit_log "ALL" extra w = accepted w (to_int LOG_ALL)
     /\ check_pgaudit_log "NONE" extra w = accepted w 0
     /\ check_pgaudit_log "ALL,-WRITE" extra w
          = accepted w (Z.land (to_int LOG_ALL) (Z.lnot LOG_WRITE)))
  /\ (forall i : Z, 0 <= i -> Z.testbit (to_int LOG_ALL) i = true)
  /\ (forall i : Z, 0 <= i ->
        Z.testbit (Z.land (to_int LOG_ALL) (Z.lnot LOG_WRITE)) i = negb (5 =? i))
  /\ (forall i : Z, 0 <= i < 32 -> Z.testbit LOG_ALL i = true).
Proof.
  assert (Hall : to_int LOG_ALL = -1) by reflexivity.
  split; [|split; [|split]].
  - intros extra w Hm. repeat split; eval_check; reflexivity.
  - intros i Hi. rewrite Hall. apply Z.bits_m1, Hi.
  - intros i Hi. rewrite Hall, Z.land_spec, Z.bits_m1, Z.lnot_spec by exact Hi.
    unfold LOG_WRITE. rewrite shiftl_1_testbit by lia. reflexivity.
  - intros i Hi. change LOG_ALL with (Z.ones 32).
    apply Z.ones_spec_low. lia.
Qed.

Lemma check_pgaudit_log_meta_witness :
  malloc_ok initial_world = true
  /\ check_pgaudit_log "ALL" NULL initial_world = accepted initial_world (-1)
  /\ check_pgaudit_log "NONE" NULL initial_world = accepted initial_world 0
  /\ check_pgaudit_log "ALL,-WRITE" NULL initial_world = accepted initial_world (-33)
  /\ Z.testbit (-33) 5 = false
  /\ Z.testbit (-33) 6 = true.
Proof.
  assert (Hm : malloc_ok initial_world = true) by reflexivity.
  pose proof (proj1 check_pgaudit_log_meta NULL initial_world Hm) as (Hall & Hnone & Hsub).
  split; [exact Hm|]. split; [exact Hall|]. split; [exact Hnone|].
  split; [exact Hsub|].
  split.
  - exact (proj1 (proj2 (proj2 check_pgaudit_log_meta)) 5 ltac:(lia)).
  - exact (proj1 (proj2 (proj2 check_pgaudit_log_meta)) 6 ltac:(lia)).
Defined.

(** ** Single directives inside the loop *)

(** One turn of the loop on a recognised token. *)
Lemma foreach_token_step
    (flags : positive) (token : string) (lt : list string) (class v : Z) (w : World) :
  class_of_token (class_text token) = Some class ->
  heap w !! flags = Some (Some v) ->
  foreach_token flags (token :: lt) w =
    foreach_token flags lt
      (set_heap (<[flags := Some (if subtractive token
                                  then Z.land v (Z.lnot class)
                                  else Z.lor v class)]> (heap w)) w).
Proof.
  intros Hclass Hcell. cbn [foreach_token]. rewrite Hclass.
  unfold mbind, M_bind, load, store. rewrite Hcell. cbn [heap set_heap].
  rewrite Hcell. reflexivity.
Qed.

(** C9: a token that resolves to [LOG_NONE] leaves the accumulator as it is,
    additive or subtractive, and the loop goes on with the tokens behind it;
    [DDL,NONE], [NONE,DDL] and [DDL,-NONE] all give the bit of DDL. *)
Theorem foreach_token_none_is_identity :
  (forall (flags : positive) (token : string) (lt : list string) (v : Z) (w : World),
     class_of_token (class_text token) = Some LOG_NONE ->
     heap w !! flags = Some (Some v) ->
     foreach_token flags (token :: lt) w = foreach_token flags lt w)
  /\ class_of_token (class_text "none") = Some LOG_NONE
  /\ class_of_token (class_text "-none") = Some LOG_NONE
  /\ subtractive "none" = false
  /\ subtractive "-none" = true
  /\ (forall (extra : ptr) (w : World),
        malloc_ok w = true ->
        check_pgaudit_log "DDL,NONE" extra w = accepted w LOG_DDL
        /\ check_pgaudit_log "NONE,DDL" extra w = accepted w LOG_DDL
        /\ check_pgaudit_log "DDL,-NONE" extra w = accepted w LOG_DDL).
Proof.
  split; [|repeat split; try (vm_compute; reflexivity)].
  - intros flags token lt v w Hclass Hcell.
    rewrite (foreach_token_step flags token lt LOG_NONE v w Hclass Hcell).
    replace (if subtractive token then Z.land v (Z.lnot LOG_NONE) else Z.lor v LOG_NONE)
      with v.
    + rewrite insert_id by exact Hcell. rewrite set_heap_id. reflexivity.
    + destruct (subtractive token); unfold LOG_NONE.
      * change (Z.lnot 0) with (-1). symmetry. apply Z.land_m1_r.
      * symmetry. apply Z.lor_0_r.
  - eval_check; reflexivity.
  - eval_check; reflexivity.
  - eval_check; reflexivity.
Qed.

Lemma foreach_token_none_is_identity_witness :
  let w := set_heap {[ 1%positive := Some LOG_DDL ]} initial_world in
  heap w !! 1%positive = Some (Some LOG_DDL)
  /\ foreach_token 1%positive ["-none"; "read"]%string w
       = foreach_token 1%positive ["read"]%string w
  /\ foreach_token 1%positive ["none"; "read"]%string w
       = foreach_token 1%positive ["read"]%string w
  /\ malloc_ok initial_world = true
  /\ check_pgaudit_log "DDL,NONE" NULL initial_world = accepted initial_world LOG_DDL.
Proof.
  intros w.
  assert (Hcell : heap w !! 1%positive = Some (Some LOG_DDL)) by reflexivity.
  assert (Hm : malloc_ok initial_world = true) by reflexivity.
  pose proof foreach_token_none_is_identity as (Hloop & Hadd & Hsub & _ & _ & Hcheck).
  split; [exact Hcell|].
  split; [exact (Hloop 1%positive "-none"%string ["read"%string] LOG_DDL w Hsub Hcell)|].
  split; [exact (Hloop 1%positive "none"%string ["read"%string] LOG_DDL w Hadd Hcell)|].
  split; [exact Hm|].
  exact (proj1 (Hcheck NULL initial_world Hm)).
Defined.

(** C10: a subtractive token that resolves to the class of [MISC] clears
    bit 2 and bit 6 of the accumulator and keeps its other bits, whatever the
    accumulator holds; [-misc] is such a token, and [ALL,-MISC] gives a value
    without bit 2 and without bit 6. *)
Theorem foreach_token_subtract_misc :
  (forall (flags : positive) (token : string) (lt : list string) (v : Z) (w : World),
     subtractive token = true ->
     class_of_token (class_text token) = Some (Z.lor LOG_MISC LOG_MISC_SET) ->
     heap w !! flags = Some (Some v) ->
     foreach_token flags (token :: lt) w =
       foreach_token flags lt
         (set_heap (<[flags := Some (Z.land v (Z.lnot (Z.lor LOG_MISC LOG_MISC_SET)))]>
                      (heap w)) w))
  /\ (forall v i : Z, 0 <= i ->
        Z.testbit (Z.land v (Z.lnot (Z.lor LOG_MISC LOG_MISC_SET))) i
          = Z.testbit v i && negb ((2 =? i) || (6 =? i)))
  /\ subtractive "-misc" = true
  /\ class_of_token (class_text "-misc") = Some (Z.lor LOG_MISC LOG_MISC_SET)
  /\ (forall (extra : ptr) (w : World),
        malloc_ok w = true ->
        check_pgaudit_log "ALL,-MISC" extra w
          = accepted w (Z.land (to_int LOG_ALL) (Z.lnot (Z.lor LOG_MISC LOG_MISC_SET)))).
Proof.
  split; [|split; [|split; [|split]]].
  - intros flags token lt v w Hsub Hclass Hcell.
    rewrite (foreach_token_step flags token lt _ v w Hclass Hcell), Hsub.
    reflexivity.
  - intros v i Hi. rewrite Z.land_spec, Z.lnot_spec, Z.lor_spec by exact Hi.
    unfold LOG_MISC, LOG_MISC_SET. rewrite !shiftl_1_testbit by lia. reflexivity.
  - reflexivity.
  - vm_compute. reflexivity.
  - intros extra w Hm. eval_check. reflexivity.
Qed.

Lemma foreach_token_subtract_misc_witness :
  let w := set_heap {[ 1%positive := Some (to_int LOG_ALL) ]} initial_world in
  subtractive "-misc" = true
  /\ heap w !! 1%positive = Some (Some (-1))
  /\ foreach_token 1%positive ["-misc"]%string w
       = Some (true, set_heap {[ 1%positive := Some (-69) ]} initial_world)
  /\ Z.testbit (-69) 2 = false
  /\ Z.testbit (-69) 6 = false
  /\ check_pgaudit_log "ALL,-MISC" NULL initial_world = accepted initial_world (-69).
Proof.
  intros w.
  assert (Hcell : heap w !! 1%positive = Some (Some (-1))) by reflexivity.
  assert (Hm : malloc_ok initial_world = true) by reflexivity.
  pose proof foreach_token_subtract_misc as (Hloop & Hbits & Hsub & Hclass & Hcheck).
  split; [exact Hsub|]. split; [exact Hcell|].
  split; [exact (Hloop 1%positive "-misc"%string [] (-1) w Hsub Hclass Hcell)|].
  split; [exact (Hbits (-1) 2 ltac:(lia))|].
  split; [exact (Hbits (-1) 6 ltac:(lia))|].
  exact (Hcheck NULL initial_world Hm).
Defined.

(** ** Case folding *)

Lemma fold_case_zero (c : ascii) :
  Ascii.eqb (fold_case c) Ascii.zero = Ascii.eqb c Ascii.zero.
Proof. destruct c as [[] [] [] [] [] [] [] []]; reflexivity. Qed.

Lemma uchar_inj (a b : ascii) : uchar a = uchar b -> a = b.
Proof.
  unfold uchar. intros H. apply N2Z.inj in H.
  rewrite <- (ascii_N_embedding a), <- (ascii_N_embedding b), H. reflexivity.
Qed.

Lemma pg_strcasecmp_unfold (s1 s2 : string) :
  pg_strcasecmp s1 s2 =
    if Ascii.eqb (fold_case (deref s1)) (fold_case (deref s2))
    then if Ascii.eqb (deref s1) Ascii.zero then 0
         else pg_strcasecmp (advance s1) (advance s2)
    else uchar (fold_case (deref s1)) - uchar (fold_case (deref s2)).
Proof.
  destruct s1 as [|c r]; cbn [pg_strcasecmp deref advance].
  - destruct (Ascii.eqb Ascii.zero (deref s2)) eqn:E.
    + apply Ascii.eqb_eq in E. rewrite <- E. reflexivity.
    + cbn [negb]. destruct (Ascii.eqb (fold_case Ascii.zero) (fold_case (deref s2))) eqn:E2.
      * cbn. reflexivity.
      * cbn. reflexivity.
  - destruct (Ascii.eqb c (deref s2)) eqn:E.
    + apply Ascii.eqb_eq in E. rewrite <- E, !Ascii.eqb_refl. cbn [negb]. reflexivity.
    + destruct (Ascii.eqb (fold_case c) (fold_case (deref s2))) eqn:E2; cbn [negb].
      * rewrite fold_case_zero. reflexivity.
      * reflexivity.
Qed.
Lemma uchar_diff_zero (a b : ascii) : uchar a - uchar b = 0 <-> a = b.
Proof.
  split; [intros H; apply uchar_inj; lia | intros ->; lia].
Qed.

Lemma canon_empty (s : string) : canon s = EmptyString <-> deref s = Ascii.zero.
Proof.
  unfold canon. destruct s as [|c r]; cbn [pstrdup deref downcase]; [tauto|].
  destruct (Ascii.eqb c Ascii.zero) eqn:E.
  - apply Ascii.eqb_eq in E. cbn. tauto.
  - apply Ascii.eqb_neq in E. cbn [downcase]. split; [discriminate | contradiction].
Qed.

Lemma canon_cons (c : ascii) (r : string) :
  c <> Ascii.zero -> canon (String c r) = String (fold_case c) (canon r).
Proof.
  intros Hc. unfold canon. cbn [pstrdup].
  apply Ascii.eqb_neq in Hc. rewrite Hc. reflexivity.
Qed.

Lemma fold_case_eq_zero (c : ascii) : fold_case c = Ascii.zero <-> c = Ascii.zero.
Proof.
  rewrite <- !Ascii.eqb_eq, fold_case_zero. tauto.
Qed.

Lemma pg_strcasecmp_canon (s1 s2 : string) :
  pg_strcasecmp s1 s2 = 0 <-> canon s1 = canon s2.
Proof.
  revert s2. induction s1 as [|c r IH]; intros s2.
  - rewrite pg_strcasecmp_unfold. cbn [deref].
    change (fold_case Ascii.zero) with Ascii.zero. rewrite Ascii.eqb_refl.
    change (canon "") with EmptyString.
    destruct (Ascii.eqb Ascii.zero (fold_case (deref s2))) eqn:E.
    + apply Ascii.eqb_eq in E. symmetry in E.
      apply (proj1 (fold_case_eq_zero _)) in E.
      apply (proj2 (canon_empty _)) in E. rewrite E. tauto.
    + apply Ascii.eqb_neq in E. rewrite uchar_diff_zero. split; [contradiction|].
      intros H. symmetry in H. apply (proj1 (canon_empty _)) in H.
      apply (proj2 (fold_case_eq_zero _)) in H. congruence.
  - rewrite pg_strcasecmp_unfold. cbn [deref advance].
    destruct (Ascii.eqb c Ascii.zero) eqn:Hc.
    + apply Ascii.eqb_eq in Hc. subst c.
      assert (H0 : canon (String Ascii.zero r) = EmptyString) by reflexivity.
      rewrite H0. change (fold_case Ascii.zero) with Ascii.zero.
      destruct (Ascii.eqb Ascii.zero (fold_case (deref s2))) eqn:E.
      * apply Ascii.eqb_eq in E. symmetry in E.
        apply (proj1 (fold_case_eq_zero _)) in E.
        apply (proj2 (canon_empty _)) in E. rewrite E. tauto.
      * apply Ascii.eqb_neq in E. rewrite uchar_diff_zero. split; [contradiction|].
        intros H. symmetry in H. apply (proj1 (canon_empty _)) in H.
        apply (proj2 (fold_case_eq_zero _)) in H. congruence.
    + apply Ascii.eqb_neq in Hc. rewrite (canon_cons c r Hc).
      destruct (Ascii.eqb (deref s2) Ascii.zero) eqn:Hd.
      * apply Ascii.eqb_eq in Hd. pose proof (proj2 (canon_empty s2) Hd) as Hs2.
        rewrite Hs2, Hd. change (fold_case Ascii.zero) with Ascii.zero.
        destruct (Ascii.eqb (fold_case c) Ascii.zero) eqn:E.
        -- apply Ascii.eqb_eq in E. apply (proj1 (fold_case_eq_zero _)) in E.
           contradiction.
        -- apply Ascii.eqb_neq in E. rewrite uchar_diff_zero.
           split; [contradiction | discriminate].
      * apply Ascii.eqb_neq in Hd. destruct s2 as [|d r2]; [contradiction Hd; reflexivity|].
        cbn [deref advance] in *. rewrite (canon_cons d r2 Hd).
        destruct (Ascii.eqb (fold_case c) (fold_case d)) eqn:E.
        -- apply Ascii.eqb_eq in E. rewrite IH, E.
           split; [intros ->; reflexivity | intros H; inversion H; reflexivity].
        -- apply Ascii.eqb_neq in E. rewrite uchar_diff_zero.
           split; [contradiction | intros H; inversion H; contradiction].
Qed.

(** The chain of tests sees a token through [canon] only. *)
Lemma class_of_token_canon (t t' : string) :
  canon t = canon t' -> class_of_token t = class_of_token t'.
Proof.
  intros H.
  assert (Htest : forall name, (pg_strcasecmp t name =? 0) = (pg_strcasecmp t' name =? 0)).
  { intros name. apply eq_true_iff_eq.
    rewrite !Z.eqb_eq, !pg_strcasecmp_canon, H. reflexivity. }
  unfold class_of_token. rewrite !Htest. reflexivity.
Qed.

Lemma name_byte_fold_case (c : ascii) : name_byte (fold_case c) = name_byte c.
Proof. destruct c as [[] [] [] [] [] [] [] []]; reflexivity. Qed.

Lemma name_bytes_downcase (s : string) : name_bytes (downcase s) = name_bytes s.
Proof.
  induction s as [|c r IH]; cbn [downcase name_bytes]; [reflexivity|].
  rewrite name_byte_fold_case, IH. reflexivity.
Qed.

Lemma bare_word_downcase (s : string) : bare_word (downcase s) = bare_word s.
Proof.
  destruct s as [|c r]; [reflexivity|].
  exact (name_bytes_downcase (String c r)).
Qed.

Lemma name_byte_inv (c : ascii) :
  name_byte c = true ->
  Ascii.eqb c "," = false /\ ctype_isspace c = false
  /\ Ascii.eqb c dquote = false /\ Ascii.eqb c Ascii.zero = false.
Proof.
  unfold name_byte. rewrite !andb_true_iff, !negb_true_iff. tauto.
Qed.

Lemma pstrdup_name_bytes (s : string) : name_bytes s = true -> pstrdup s = s.
Proof.
  induction s as [|c r IH]; cbn [name_bytes pstrdup]; [reflexivity|].
  rewrite andb_true_iff. intros [Hc Hr].
  apply name_byte_inv in Hc as (_ & _ & _ & ->). rewrite (IH Hr). reflexivity.
Qed.

Lemma scan_unquoted_name_bytes (s : string) :
  name_bytes s = true -> scan_unquoted "," s = (s, EmptyString).
Proof.
  induction s as [|c r IH]; cbn [name_bytes scan_unquoted]; [reflexivity|].
  rewrite andb_true_iff. intros [Hc Hr].
  apply name_byte_inv in Hc as (-> & -> & _ & _). cbn [orb].
  rewrite (IH Hr). reflexivity.
Qed.

Lemma scan_name_bare_word (s : string) :
  bare_word s = true ->
  scan_name "," s = Some (downcase_truncate_identifier s, EmptyString).
Proof.
  destruct s as [|c r]; [discriminate|]. cbn [bare_word]. intros Hs.
  unfold scan_name. rewrite (scan_unquoted_name_bytes _ Hs).
  cbn [name_bytes] in Hs. apply andb_true_iff in Hs as [Hc _].
  apply name_byte_inv in Hc as (_ & _ & Hq & _).
  cbn [deref]. rewrite Hq. reflexivity.
Qed.

Lemma split_names_bare_word (s : string) :
  bare_word s = true ->
  split_names "," s
    = Some [truncate_identifier (downcase_truncate_identifier s)].
Proof.
  intros Hs. pose proof (scan_name_bare_word s Hs) as Hscan.
  funelim (split_names "," s).
  - congruence.
  - match goal with
    | Hn : scan_name _ _ = Some (curname, rest) |- _ =>
        pose proof (eq_trans (eq_sym Hn) Hscan) as Heq
    end.
    inversion Heq. reflexivity.
  - match goal with
    | Hn : scan_name _ _ = Some (_, ?rst), Hr : skip_space ?rst = String _ _ |- _ =>
        pose proof (eq_trans (eq_sym Hn) Hscan) as Heq;
        pose proof Hr as Hskip;
        inversion Heq as [[Hcur Hempty]]; rewrite Hempty in Hskip;
        discriminate Hskip
    end.
Qed.

Lemma SplitIdentifierString_bare_word (s : string) :
  bare_word s = true ->
  SplitIdentifierString (pstrdup s) ","
    = Some [truncate_identifier (downcase_truncate_identifier s)].
Proof.
  intros Hs. unfold SplitIdentifierString.
  destruct s as [|c r]; [discriminate|].
  cbn [bare_word] in Hs. rewrite (pstrdup_name_bytes _ Hs).
  pose proof Hs as Hc. cbn [name_bytes] in Hc.
  apply andb_true_iff in Hc as [Hc _].
  apply name_byte_inv in Hc as (_ & Hsp & _ & _).
  cbn [skip_space]. rewrite Hsp.
  apply split_names_bare_word. exact Hs.
Qed.

(** Two spellings of a bare word that differ by the case of letters only give
    the same token list, hence the same run of the hook. *)
Lemma check_pgaudit_log_spelling (s name : string) (extra : ptr) (w : World) :
  bare_word name = true ->
  downcase s = downcase name ->
  check_pgaudit_log s extra w = check_pgaudit_log name extra w.
Proof.
  intros Hname Hspell.
  assert (Hs : bare_word s = true).
  { rewrite <- bare_word_downcase, Hspell, bare_word_downcase. exact Hname. }
  rewrite !check_pgaudit_log_fold.
  rewrite (SplitIdentifierString_bare_word s Hs),
          (SplitIdentifierString_bare_word name Hname).
  unfold downcase_truncate_identifier. rewrite Hspell. reflexivity.
Qed.

Lemma pstrdup_downcase (s : string) : pstrdup (downcase s) = downcase (pstrdup s).
Proof.
  induction s as [|c r IH]; cbn [downcase pstrdup]; [reflexivity|].
  rewrite fold_case_zero. destruct (Ascii.eqb c Ascii.zero); [reflexivity|].
  cbn [downcase]. rewrite IH. reflexivity.
Qed.

Lemma case_variant_canon (t t' : string) : case_variant t t' -> canon t = canon t'.
Proof.
  unfold case_variant, canon. intros H.
  rewrite <- !pstrdup_downcase, H. reflexivity.
Qed.

(** C8: a setting that spells one of the nine names up to the case of its
    letters runs the hook exactly as the name itself does; the chain of tests
    gives two tokens that differ by case only the same class; and [ddl],
    [DDL] and [Ddl] all give the bit of DDL alone. *)
Theorem check_pgaudit_log_case_insensitive :
  (forall (name s : string) (extra : ptr) (w : World),
     In name class_names ->
     case_variant s name ->
     check_pgaudit_log s extra w = check_pgaudit_log name extra w)
  /\ (forall t t' : string,
        case_variant t t' -> class_of_token t = class_of_token t')
  /\ (forall (extra : ptr) (w : World),
        malloc_ok w = true ->
        check_pgaudit_log "ddl" extra w = accepted w LOG_DDL
        /\ check_pgaudit_log "DDL" extra w = accepted w LOG_DDL
        /\ check_pgaudit_log "Ddl" extra w = accepted w LOG_DDL).
Proof.
  split; [|split].
  - intros name s extra w Hin Hspell.
    apply check_pgaudit_log_spelling; [|exact Hspell].
    simpl in Hin.
    repeat (destruct Hin as [<- | Hin]; [reflexivity|]). contradiction.
  - intros t t' Hspell. apply class_of_token_canon, case_variant_canon, Hspell.
  - intros extra w Hm. repeat split; eval_check; reflexivity.
Qed.

Lemma check_pgaudit_log_case_insensitive_witness :
  In CLASS_FUNCTION class_names
  /\ case_variant "fUnCtIoN" CLASS_FUNCTION
  /\ check_pgaudit_log "fUnCtIoN" NULL initial_world
       = check_pgaudit_log CLASS_FUNCTION NULL initial_world
  /\ check_pgaudit_log "fUnCtIoN" NULL initial_world
       = accepted initial_world LOG_FUNCTION
  /\ class_of_token "mIsC_sEt" = class_of_token "MISC_SET"
  /\ malloc_ok initial_world = true
  /\ check_pgaudit_log "Ddl" NULL initial_world = accepted initial_world LOG_DDL.
Proof.
  assert (Hin : In CLASS_FUNCTION class_names) by (simpl; tauto).
  assert (Hspell : case_variant "fUnCtIoN" CLASS_FUNCTION) by reflexivity.
  assert (Hspell' : case_variant "mIsC_sEt" "MISC_SET") by reflexivity.
  assert (Hm : malloc_ok initial_world = true) by reflexivity.
  pose proof check_pgaudit_log_case_insensitive as (Hcheck & Htoken & Hddl).
  split; [exact Hin|]. split; [exact Hspell|].
  split; [exact (Hcheck CLASS_FUNCTION "fUnCtIoN"%string NULL initial_world Hin Hspell)|].
  split; [vm_compute; reflexivity|].
  split; [exact (Htoken "mIsC_sEt"%string "MISC_SET"%string Hspell')|].
  split; [exact Hm|].
  exact (proj2 (proj2 (Hddl NULL initial_world Hm))).
Defined.

(** ** The two hooks in sequence *)

(** X11: when the check hook returns [true], the setting split into tokens
    whose fold has a value [v], and the assign hook called with the [extra]
    it produced returns in a world where [auditLogBitmap] is [v]; the other
    statics are what they were before the check, the heap and the detail
    message what the check left. *)
Lemma check_then_assign
    (newVal : string) (extra extra' : ptr) (w w' : World) :
  check_pgaudit_log newVal extra w = Some (true, extra', w') ->
  exists (tokens : list string) (v : Z) (w'' : World),
    SplitIdentifierString (pstrdup newVal) "," = Some tokens
    /\ fold_directives 0 tokens = Some v
    /\ assign_pgaudit_log newVal extra' w' = Some (tt, w'')
    /\ auditLogBitmap w'' = v
    /\ auditLog w'' = auditLog w
    /\ auditLogCatalog w'' = auditLogCatalog w
    /\ heap w'' = heap w'
    /\ malloc_ok w'' = malloc_ok w
    /\ GUC_check_errdetail_string w'' = GUC_check_errdetail_string w.
Proof.
  rewrite check_pgaudit_log_fold.
  destruct (SplitIdentifierString (pstrdup newVal) ",") as [tokens|];
    [|discriminate].
  destruct (malloc_ok w) eqn:Hm; [|discriminate].
  destruct (fold_directives 0 tokens) as [v|] eqn:Hfold; [|discriminate].
  unfold accepted. intros H. inversion H; subst extra' w'.
  destruct (assign_pgaudit_log_commit_fields newVal (candidate_cell w) v
              (set_heap (<[candidate_cell w := Some v]> (heap w)) w))
    as (w'' & Hrun & Hbitmap & Hlog & Hcatalog & Hheap & Hmalloc & Hdetail).
  { cbn [heap set_heap]. apply lookup_insert_eq. }
  exists tokens, v, w''. split; [reflexivity|]. split; [exact Hfold|].
  split; [exact Hrun|]. split; [exact Hbitmap|].
  split; [exact Hlog|]. split; [exact Hcatalog|]. split; [exact Hheap|].
  split; [exact (eq_trans Hmalloc Hm) | exact Hdetail].
Qed.

(** ** Further properties of the check hook *)

Lemma fold_directive_None_l (token : string) : fold_directive None token = None.
Proof. reflexivity. Qed.

Lemma fold_directives_cons (acc : Z) (token : string) (lt : list string) :
  fold_directives acc (token :: lt) =
    match class_of_token (class_text token) with
    | Some bits =>
        fold_directives
          (if subtractive token then Z.land acc (Z.lnot bits) else Z.lor acc bits) lt
    | None => None
    end.
Proof.
  unfold fold_directives. cbn [fold_left fold_directive].
  destruct (class_of_token (class_text token)); [reflexivity|].
  apply fold_left_directive_None.
Qed.

Lemma fold_directives_known (tokens : list string) (acc : Z) :
  Forall known_token tokens -> exists v : Z, fold_directives acc tokens = Some v.
Proof.
  intros Hall. revert acc.
  induction Hall as [|token lt Hknown _ IH]; intros acc.
  - exists acc. reflexivity.
  - rewrite fold_directives_cons. unfold known_token in Hknown.
    destruct (class_of_token (class_text token)) as [bits|]; [apply IH|congruence].
Qed.

Lemma fold_directives_Some_known (tokens : list string) (acc v : Z) :
  fold_directives acc tokens = Some v -> Forall known_token tokens.
Proof.
  revert acc. induction tokens as [|token lt IH]; intros acc H; [constructor|].
  rewrite fold_directives_cons in H. constructor.
  - unfold known_token. destruct (class_of_token (class_text token)); congruence.
  - destruct (class_of_token (class_text token)); [eapply IH, H|discriminate].
Qed.

Lemma accepted_inv (w w' : World) (v : Z) (ok : bool) (extra' : ptr) :
  accepted w v = Some (ok, extra', w') ->
  ok = true /\ extra' = Some (candidate_cell w)
  /\ w' = set_heap (<[candidate_cell w := Some v]> (heap w)) w.
Proof. unfold accepted. intros H. inversion H. auto. Qed.

(** The three ways the hook returns. *)
Lemma check_pgaudit_log_cases
    (newVal : string) (extra : ptr) (w : World) (ok : bool) (extra' : ptr) (w' : World) :
  check_pgaudit_log newVal extra w = Some (ok, extra', w') ->
  (SplitIdentifierString (pstrdup newVal) "," = None
   /\ ok = false /\ extra' = extra
   /\ w' = set_errdetail (Some "List syntax is invalid"%string) w)
  \/ (exists tokens,
        SplitIdentifierString (pstrdup newVal) "," = Some tokens
        /\ (malloc_ok w = false \/ fold_directives 0 tokens = None)
        /\ ok = false /\ extra' = extra /\ w' = w)
  \/ (exists tokens v,
        SplitIdentifierString (pstrdup newVal) "," = Some tokens
        /\ malloc_ok w = true /\ fold_directives 0 tokens = Some v
        /\ ok = true /\ extra' = Some (candidate_cell w)
        /\ w' = set_heap (<[candidate_cell w := Some v]> (heap w)) w).
Proof.
  rewrite check_pgaudit_log_fold.
  destruct (SplitIdentifierString (pstrdup newVal) ",") as [tokens|].
  - destruct (malloc_ok w) eqn:Hm.
    + destruct (fold_directives 0 tokens) as [v|] eqn:Hfold.
      * intros H. apply accepted_inv in H as (-> & -> & ->).
        right; right. exists tokens, v. auto 10.
      * unfold rejected. intros H. inversion H; subst.
        right; left. exists tokens. auto 10.
    + unfold rejected. intros H. inversion H; subst.
      right; left. exists tokens. auto 10.
  - unfold rejected. intros H. inversion H; subst. left. auto.
Qed.

(** X1: the detail message of the GUC machinery is set exactly when the list
    syntax is invalid, to the fixed text, and the hook then returns [false];
    on every other path the message is left as it was. *)
Theorem check_pgaudit_log_detail_message
    (newVal : string) (extra : ptr) (w : World) (ok : bool) (extra' : ptr) (w' : World) :
  check_pgaudit_log newVal extra w = Some (ok, extra', w') ->
  (SplitIdentifierString (pstrdup newVal) "," = None ->
   ok = false
   /\ GUC_check_errdetail_string w' = Some "List syntax is invalid"%string)
  /\ (SplitIdentifierString (pstrdup newVal) "," <> None ->
      GUC_check_errdetail_string w' = GUC_check_errdetail_string w).
Proof.
  intros Hrun.
  destruct (check_pgaudit_log_cases _ _ _ _ _ _ Hrun)
    as [(Hs & -> & -> & ->) | [(tokens & Hs & _ & -> & -> & ->)
                              | (tokens & v & Hs & _ & _ & -> & -> & ->)]];
    (split; [intros Hnone | intros Hsome]);
    try congruence; try (split; reflexivity); reflexivity.
Qed.

Lemma check_pgaudit_log_detail_message_witness :
  check_pgaudit_log "read,,write" NULL initial_world
    = Some (false, NULL, set_errdetail (Some "List syntax is invalid"%string) initial_world)
  /\ SplitIdentifierString (pstrdup "read,,write") "," = None
  /\ GUC_check_errdetail_string
       (set_errdetail (Some "List syntax is invalid"%string) initial_world)
     = Some "List syntax is invalid"%string.
Proof.
  assert (Hrun : check_pgaudit_log "read,,write" NULL initial_world
                 = Some (false, NULL,
                         set_errdetail (Some "List syntax is invalid"%string) initial_world))
    by (vm_compute; reflexivity).
  assert (Hs : SplitIdentifierString (pstrdup "read,,write") "," = None)
    by (vm_compute; reflexivity).
  split; [exact Hrun|]. split; [exact Hs|].
  exact (proj2 (proj1 (check_pgaudit_log_detail_message _ _ _ _ _ _ Hrun) Hs)).
Defined.

(** X2: when the hook returns [false] it has left [*extra] as it was and the
    [malloc] heap as it was: the cell of the bitmap under construction has
    been freed on the unknown-token path, and none was taken on the other
    paths.  The [palloc]ed [rawVal] and [flagRawList] are not part of the
    world, and nothing is said of them. *)
Theorem check_pgaudit_log_failure_keeps_heap
    (newVal : string) (extra extra' : ptr) (w w' : World) :
  check_pgaudit_log newVal extra w = Some (false, extra', w') ->
  extra' = extra /\ heap w' = heap w /\ malloc_ok w' = malloc_ok w.
Proof.
  intros Hrun.
  destruct (check_pgaudit_log_cases _ _ _ _ _ _ Hrun)
    as [(_ & _ & -> & ->) | [(tokens & _ & _ & _ & -> & ->)
                           | (tokens & v & _ & _ & _ & Hok & _)]];
    [auto | auto | discriminate Hok].
Qed.

Lemma check_pgaudit_log_failure_keeps_heap_witness :
  let w := set_heap {[ 1%positive := Some LOG_READ ]} initial_world in
  check_pgaudit_log "ddl,-write,nonsense" (Some 1%positive) w
    = Some (false, Some 1%positive, w)
  /\ heap w = {[ 1%positive := Some LOG_READ ]}.
Proof.
  intros w.
  assert (Hrun : check_pgaudit_log "ddl,-write,nonsense" (Some 1%positive) w
                 = Some (false, Some 1%positive, w)) by (vm_compute; reflexivity).
  split; [exact Hrun|].
  exact (proj1 (proj2 (check_pgaudit_log_failure_keeps_heap _ _ _ _ _ Hrun))).
Defined.

(** X3: when the hook returns [true], [*extra] is not null and points to a
    cell that was not live at the call; the heap at the return is the heap
    at the call with that one cell added, holding a value; the detail message
    is untouched. *)
Theorem check_pgaudit_log_success_allocates_one
    (newVal : string) (extra extra' : ptr) (w w' : World) :
  check_pgaudit_log newVal extra w = Some (true, extra', w') ->
  exists (p : positive) (v : Z),
    extra' = Some p
    /\ heap w !! p = None
    /\ heap w' = <[p := Some v]> (heap w)
    /\ (forall q : positive, q <> p -> heap w' !! q = heap w !! q)
    /\ GUC_check_errdetail_string w' = GUC_check_errdetail_string w.
Proof.
  intros Hrun.
  destruct (check_pgaudit_log_cases _ _ _ _ _ _ Hrun)
    as [(_ & Hok & _) | [(tokens & _ & _ & Hok & _)
                        | (tokens & v & _ & _ & _ & _ & -> & ->)]];
    [discriminate Hok | discriminate Hok |].
  exists (candidate_cell w), v. split; [reflexivity|].
  split; [apply candidate_cell_fresh|]. split; [reflexivity|].
  split; [|reflexivity].
  intros q Hq. cbn [heap set_heap]. apply lookup_insert_ne. congruence.
Qed.

Lemma check_pgaudit_log_success_allocates_one_witness :
  let w := set_heap {[ 1%positive := Some LOG_READ ]} initial_world in
  check_pgaudit_log "ddl,role" (Some 1%positive) w
    = Some (true, Some 2%positive,
            set_heap {[ 1%positive := Some LOG_READ; 2%positive := Some 17 ]} w)
  /\ exists (p : positive) (v : Z),
       Some 2%positive = Some p
       /\ heap w !! p = None
       /\ heap (set_heap {[ 1%positive := Some LOG_READ; 2%positive := Some 17 ]} w)
            = <[p := Some v]> (heap w)
       /\ (forall q : positive, q <> p ->
             heap (set_heap {[ 1%positive := Some LOG_READ; 2%positive := Some 17 ]} w) !! q
               = heap w !! q)
       /\ GUC_check_errdetail_string
            (set_heap {[ 1%positive := Some LOG_READ; 2%positive := Some 17 ]} w)
          = GUC_check_errdetail_string w.
Proof.
  intros w.
  assert (Hrun : check_pgaudit_log "ddl,role" (Some 1%positive) w
    = Some (true, Some 2%positive,
            set_heap {[ 1%positive := Some LOG_READ; 2%positive := Some 17 ]} w))
    by (vm_compute; reflexivity).
  split; [exact Hrun|].
  exact (check_pgaudit_log_success_allocates_one _ _ _ _ _ Hrun).
Defined.

(** X4: the hook returns [true] exactly when [malloc] succeeds and the setting
    splits into tokens each of which, past its marker, is one of the nine
    names. *)
Theorem check_pgaudit_log_accepts_iff (newVal : string) (extra : ptr) (w : World) :
  (exists (extra' : ptr) (w' : World),
     check_pgaudit_log newVal extra w = Some (true, extra', w'))
  <-> malloc_ok w = true
      /\ exists tokens : list string,
           SplitIdentifierString (pstrdup newVal) "," = Some tokens
           /\ Forall known_token tokens.
Proof.
  split.
  - intros (extra' & w' & Hrun).
    destruct (check_pgaudit_log_cases _ _ _ _ _ _ Hrun)
      as [(_ & Hok & _) | [(tokens & _ & _ & Hok & _)
                          | (tokens & v & Hs & Hm & Hfold & _)]];
      [discriminate Hok | discriminate Hok |].
    split; [exact Hm|]. exists tokens. split; [exact Hs|].
    eapply fold_directives_Some_known, Hfold.
  - intros (Hm & tokens & Hs & Hknown).
    destruct (fold_directives_known tokens 0 Hknown) as [v Hfold].
    rewrite check_pgaudit_log_fold, Hs, Hm, Hfold.
    unfold accepted. eauto.
Qed.

(** The chain of tests on a name of the table. *)
Lemma class_of_token_table (name : string) (bits : Z) :
  In (name, bits) class_table -> class_of_token name = Some bits.
Proof.
  simpl. intros Hin.
  repeat (destruct Hin as [Heq | Hin];
          [inversion Heq; subst name bits; vm_compute; reflexivity|]).
  contradiction.
Qed.

(** X5: what the chain of [pg_strcasecmp] tests gives on any token.  A token
    whose text up to its NUL is a name of the table, up to the case of ASCII
    letters, gets the class of that name; a token gets no class exactly when
    its text is none of the nine names in that sense. *)
Theorem class_of_token_resolution (token : string) :
  (forall (name : string) (bits : Z),
     In (name, bits) class_table ->
     canon token = canon name ->
     class_of_token token = Some bits)
  /\ (class_of_token token = None
      <-> forall name : string, In name class_names -> canon token <> canon name).
Proof.
  split; [|split].
  - intros name bits Hin Hcanon.
    rewrite (class_of_token_canon token name Hcanon).
    apply class_of_token_table, Hin.
  - intros Hnone name Hin Hcanon.
    rewrite (class_of_token_canon token name Hcanon) in Hnone.
    simpl in Hin.
    repeat (destruct Hin as [<- | Hin]; [discriminate Hnone|]).
    contradiction.
  - intros Hno. unfold class_of_token.
    repeat match goal with
    | |- (if pg_strcasecmp token ?name =? 0 then _ else _) = None =>
        destruct (pg_strcasecmp token name =? 0) eqn:?Htest;
        [ exfalso; apply Z.eqb_eq, pg_strcasecmp_canon in Htest;
          apply (Hno name); [simpl; tauto | exact Htest]
        | clear Htest ]
    end.
    reflexivity.
Qed.

Lemma class_of_token_resolution_witness :
  In (CLASS_MISC_SET, LOG_MISC_SET) class_table
  /\ canon "Misc_Set" = canon CLASS_MISC_SET
  /\ class_of_token "Misc_Set" = Some LOG_MISC_SET
  /\ class_of_token "misc_" = None
  /\ (forall name : string, In name class_names -> canon "misc_" <> canon name).
Proof.
  assert (Hin : In (CLASS_MISC_SET, LOG_MISC_SET) class_table) by (simpl; tauto).
  assert (Hcanon : canon "Misc_Set" = canon CLASS_MISC_SET) by reflexivity.
  assert (Hnone : class_of_token "misc_" = None) by (vm_compute; reflexivity).
  split; [exact Hin|]. split; [exact Hcanon|].
  split; [exact (proj1 (class_of_token_resolution "Misc_Set") _ _ Hin Hcanon)|].
  split; [exact Hnone|].
  exact (proj1 (proj2 (class_of_token_resolution "misc_")) Hnone).
Defined.

(** ** The values the fold can take *)

Lemma class_of_token_values (token : string) (bits : Z) :
  class_of_token token = Some bits -> In bits (map snd class_table).
Proof.
  unfold class_of_token.
  repeat match goal with
  | |- (if ?test then _ else _) = _ -> _ => destruct test
  end; intros H; inversion H; subst; simpl; tauto.
Qed.

Lemma small_ints_spec (a : Z) : -128 <= a < 128 -> In a small_ints.
Proof.
  intros Ha. unfold small_ints. apply in_map_iff.
  exists (Z.to_nat (a + 128)). split; [lia|].
  apply in_seq. lia.
Qed.

Lemma directive_keeps_small_range (a bits : Z) (subtract : bool) :
  -128 <= a < 128 ->
  In bits (map snd class_table) ->
  -128 <= (if subtract then Z.land a (Z.lnot bits) else Z.lor a bits) < 128.
Proof.
  intros Ha Hbits.
  assert (Hall : forallb (fun a =>
            forallb (fun bits =>
              in_small_range (Z.land a (Z.lnot bits))
              && in_small_range (Z.lor a bits)) (map snd class_table))
            small_ints = true) by (vm_compute; reflexivity).
  rewrite forallb_forall in Hall.
  specialize (Hall a (small_ints_spec a Ha)).
  rewrite forallb_forall in Hall. specialize (Hall bits Hbits).
  unfold in_small_range in Hall.
  rewrite !andb_true_iff, !Z.leb_le, !Z.ltb_lt in Hall.
  destruct subtract; lia.
Qed.

Lemma fold_directives_small_range (tokens : list string) (acc v : Z) :
  -128 <= acc < 128 ->
  fold_directives acc tokens = Some v ->
  -128 <= v < 128.
Proof.
  revert acc. induction tokens as [|token lt IH]; intros acc Hacc Hfold.
  - inversion Hfold; subst. exact Hacc.
  - rewrite fold_directives_cons in Hfold.
    destruct (class_of_token (class_text token)) as [bits|] eqn:Hclass;
      [|discriminate].
    eapply IH; [|exact Hfold].
    apply directive_keeps_small_range; [exact Hacc|].
    eapply class_of_token_values, Hclass.
Qed.

Lemma testbit_above_6 (u i : Z) : 0 <= u < 128 -> 7 <= i -> Z.testbit u i = false.
Proof.
  intros Hu Hi. destruct (Z.eq_dec u 0) as [-> | Hnz]; [apply Z.bits_0|].
  apply Z.bits_above_log2; [lia|].
  assert (Z.log2 u < 7) by (apply Z.log2_lt_pow2; lia). lia.
Qed.

Lemma small_range_high_bits (v i : Z) :
  -128 <= v < 128 -> 7 <= i -> Z.testbit v i = (v <? 0).
Proof.
  intros Hv Hi. destruct (Z.ltb_spec v 0) as [Hneg | Hpos].
  - replace v with (Z.lnot (- v - 1)) by (unfold Z.lnot; lia).
    rewrite Z.lnot_spec by lia. rewrite testbit_above_6 by lia. reflexivity.
  - apply testbit_above_6; lia.
Qed.

(** X6: the bitmap the hook hands over lies between -128 and 127: it fits the
    [int] it is stored in, no operation of the fold overflows, and its bits
    above bit 6 are all clear or all set. *)
Theorem check_pgaudit_log_candidate_range
    (newVal : string) (extra extra' : ptr) (w w' : World) :
  check_pgaudit_log newVal extra w = Some (true, extra', w') ->
  exists (p : positive) (v : Z),
    extra' = Some p /\ heap w' !! p = Some (Some v)
    /\ -128 <= v < 128
    /\ to_int v = v
    /\ (forall i : Z, 7 <= i -> Z.testbit v i = Z.testbit v 7).
Proof.
  intros Hrun.
  destruct (check_pgaudit_log_cases _ _ _ _ _ _ Hrun)
    as [(_ & Hok & _) | [(tokens & _ & _ & Hok & _)
                        | (tokens & v & _ & _ & Hfold & _ & -> & ->)]];
    [discriminate Hok | discriminate Hok |].
  assert (Hv : -128 <= v < 128)
    by (eapply fold_directives_small_range; [|exact Hfold]; lia).
  exists (candidate_cell w), v. split; [reflexivity|].
  split; [cbn [heap set_heap]; apply lookup_insert_eq|].
  split; [exact Hv|]. split.
  - unfold to_int. rewrite Z.mod_small by lia. lia.
  - intros i Hi. rewrite !(small_range_high_bits v) by lia. reflexivity.
Qed.

Lemma check_pgaudit_log_candidate_range_witness :
  check_pgaudit_log "all,-misc,-read" NULL initial_world
    = Some (true, Some 1%positive, set_heap {[ 1%positive := Some (-77) ]} initial_world)
  /\ exists (p : positive) (v : Z),
       Some 1%positive = Some p
       /\ heap (set_heap {[ 1%positive := Some (-77) ]} initial_world) !! p = Some (Some v)
       /\ -128 <= v < 128
       /\ to_int v = v
       /\ (forall i : Z, 7 <= i -> Z.testbit v i = Z.testbit v 7).
Proof.
  assert (Hrun : check_pgaudit_log "all,-misc,-read" NULL initial_world
    = Some (true, Some 1%positive, set_heap {[ 1%positive := Some (-77) ]} initial_world))
    by (vm_compute; reflexivity).
  split; [exact Hrun|].
  exact (check_pgaudit_log_candidate_range _ _ _ _ _ Hrun).
Defined.

(** X7: the bitmap depends on the text of the setting alone: when the hook
    accepts a setting with bitmap [v] in one world, it accepts it with the
    same bitmap in every world where [malloc] succeeds, whatever the statics,
    the heap and [*extra] hold there. *)
Theorem check_pgaudit_log_value_independent
    (newVal : string) (extra1 extra2 : ptr) (w1 w2 : World) (v : Z) :
  check_pgaudit_log newVal extra1 w1 = accepted w1 v ->
  malloc_ok w2 = true ->
  check_pgaudit_log newVal extra2 w2 = accepted w2 v.
Proof.
  intros Hrun Hm2.
  destruct (check_pgaudit_log_cases _ _ _ _ _ _ Hrun)
    as [(_ & Hok & _) | [(tokens & _ & _ & Hok & _)
                        | (tokens & v' & Hs & _ & Hfold & _ & _ & Hw)]];
    [discriminate Hok | discriminate Hok |].
  assert (Hv : v' = v).
  { apply (f_equal (fun w => heap w !! candidate_cell w1)) in Hw.
    cbn [heap set_heap] in Hw. rewrite !lookup_insert_eq in Hw. congruence. }
  subst v'. rewrite check_pgaudit_log_fold, Hs, Hm2, Hfold. reflexivity.
Qed.

Lemma check_pgaudit_log_value_independent_witness :
  let w2 := mkWorld LOG_ALL (Some "all"%string) false
              {[ 1%positive := Some 3; 2%positive := None ]} true
              (Some "stale"%string) in
  check_pgaudit_log "role,-role,function" NULL initial_world
    = accepted initial_world LOG_FUNCTION
  /\ malloc_ok w2 = true
  /\ check_pgaudit_log "role,-role,function" (Some 1%positive) w2
       = accepted w2 LOG_FUNCTION.
Proof.
  intros w2.
  assert (Hrun : check_pgaudit_log "role,-role,function" NULL initial_world
                 = accepted initial_world LOG_FUNCTION) by (vm_compute; reflexivity).
  assert (Hm : malloc_ok w2 = true) by reflexivity.
  split; [exact Hrun|]. split; [exact Hm|].
  exact (check_pgaudit_log_value_independent _ NULL (Some 1%positive)
           initial_world w2 LOG_FUNCTION Hrun Hm).
Defined.

(** ** Further properties of the loop *)

Lemma fold_directives_app (acc : Z) (l1 l2 : list string) :
  fold_directives acc (l1 ++ l2) =
    match fold_directives acc l1 with
    | Some v => fold_directives v l2
    | None => None
    end.
Proof.
  unfold fold_directives. rewrite fold_left_app.
  destruct (fold_left fold_directive l1 (Some acc)); [reflexivity|].
  apply fold_left_directive_None.
Qed.

(** X8: a last token that resolves to [LOG_ALL] decides the bitmap alone.
    After any tokens that are all known, an additive one leaves every bit
    set and a subtractive one leaves no bit set, and the loop ends with
    [flags] live. *)
Theorem foreach_token_final_all
    (flags : positive) (tokens : list string) (token : string) (v : Z) (w : World) :
  heap w !! flags = Some (Some v) ->
  Forall known_token tokens ->
  class_of_token (class_text token) = Some (to_int LOG_ALL) ->
  foreach_token flags (tokens ++ [token]) w =
    Some (true,
          set_heap (<[flags := Some (if subtractive token then LOG_NONE
                                     else to_int LOG_ALL)]> (heap w)) w).
Proof.
  intros Hcell Hknown Hall.
  rewrite (foreach_token_fold _ flags v w Hcell), fold_directives_app.
  destruct (fold_directives_known tokens v Hknown) as [v1 ->].
  rewrite fold_directives_cons, Hall. unfold fold_directives. cbn [fold_left].
  change (to_int LOG_ALL) with (-1).
  destruct (subtractive token).
  - change (Z.lnot (-1)) with 0. rewrite Z.land_0_r. reflexivity.
  - rewrite Z.lor_m1_r. reflexivity.
Qed.

Lemma foreach_token_final_all_witness :
  let w := set_heap {[ 1%positive := Some 0 ]} initial_world in
  heap w !! 1%positive = Some (Some 0)
  /\ Forall known_token ["read"; "-ddl"; "misc"]%string
  /\ foreach_token 1%positive ["read"; "-ddl"; "misc"; "-ALL"]%string w
       = Some (true, set_heap {[ 1%positive := Some 0 ]} initial_world)
  /\ foreach_token 1%positive ["read"; "-ddl"; "misc"; "all"]%string w
       = Some (true, set_heap {[ 1%positive := Some (-1) ]} initial_world).
Proof.
  intros w.
  assert (Hcell : heap w !! 1%positive = Some (Some 0)) by reflexivity.
  assert (Hknown : Forall known_token ["read"; "-ddl"; "misc"]%string).
  { repeat constructor; unfold known_token; vm_compute; discriminate. }
  assert (Hsub : class_of_token (class_text "-ALL") = Some (to_int LOG_ALL))
    by (vm_compute; reflexivity).
  assert (Hadd : class_of_token (class_text "all") = Some (to_int LOG_ALL))
    by (vm_compute; reflexivity).
  split; [exact Hcell|]. split; [exact Hknown|]. split.
  - exact (foreach_token_final_all 1%positive _ "-ALL"%string 0 w Hcell Hknown Hsub).
  - exact (foreach_token_final_all 1%positive _ "all"%string 0 w Hcell Hknown Hadd).
Defined.

(** X9: a token written twice in a row counts once: the loop ends in the same
    world, with the same result, whether the token is known or not and
    whether [flags] is live or not. *)
Theorem foreach_token_repeated_token
    (flags : positive) (token : string) (lt : list string) (w : World) :
  foreach_token flags (token :: token :: lt) w = foreach_token flags (token :: lt) w.
Proof.
  destruct (class_of_token (class_text token)) as [class|] eqn:Hclass.
  - destruct (heap w !! flags) as [[v|]|] eqn:Hcell.
    + rewrite (foreach_token_step flags token (token :: lt) class v w Hclass Hcell).
      rewrite (foreach_token_step flags token lt class v w Hclass Hcell).
      set (v1 := if subtractive token then Z.land v (Z.lnot class) else Z.lor v class).
      rewrite (foreach_token_step flags token lt class v1)
        by (try exact Hclass; cbn [heap set_heap]; apply lookup_insert_eq).
      cbn [heap set_heap]. rewrite insert_insert_eq.
      replace (if subtractive token then Z.land v1 (Z.lnot class) else Z.lor v1 class)
        with v1; [reflexivity|].
      unfold v1. destruct (subtractive token).
      * rewrite <- Z.land_assoc, Z.land_diag. reflexivity.
      * rewrite <- Z.lor_assoc, Z.lor_diag. reflexivity.
    + cbn [foreach_token]. rewrite Hclass.
      unfold mbind, M_bind, load. rewrite Hcell. reflexivity.
    + cbn [foreach_token]. rewrite Hclass.
      unfold mbind, M_bind, load. rewrite Hcell. reflexivity.
  - cbn [foreach_token]. rewrite Hclass. reflexivity.
Qed.

Lemma fold_directive_additive_swap (a : option Z) (x y : string) :
  subtractive x = false -> subtractive y = false ->
  fold_directive (fold_directive a x) y = fold_directive (fold_directive a y) x.
Proof.
  intros Hx Hy. unfold fold_directive. rewrite Hx, Hy.
  destruct a as [acc|];
    destruct (class_of_token (class_text x)) as [bx|];
    destruct (class_of_token (class_text y)) as [by'|]; try reflexivity.
  f_equal. rewrite <- !Z.lor_assoc. f_equal. apply Z.lor_comm.
Qed.

Lemma fold_left_directive_additive_perm (l1 l2 : list string) :
  Permutation l1 l2 ->
  Forall (fun token => subtractive token = false) l1 ->
  forall a : option Z, fold_left fold_directive l1 a = fold_left fold_directive l2 a.
Proof.
  induction 1 as [| x l l' _ IH | x y l | l l' l'' H1 IH1 H2 IH2]; intros Hadd a.
  - reflexivity.
  - cbn [fold_left]. apply IH. inversion Hadd; assumption.
  - cbn [fold_left]. inversion Hadd as [|? ? Hy Hrest]; subst.
    inversion Hrest as [|? ? Hx _]; subst.
    rewrite (fold_directive_additive_swap a x y Hx Hy). reflexivity.
  - rewrite IH1 by exact Hadd. apply IH2.
    eapply Permutation_Forall; eassumption.
Qed.

(** X10: among additive tokens the order does not matter: two lists of
    tokens without a marker that are permutations of each other take the loop
    to the same world with the same result. *)
Theorem foreach_token_additive_order
    (flags : positive) (l1 l2 : list string) (v : Z) (w : World) :
  heap w !! flags = Some (Some v) ->
  Permutation l1 l2 ->
  Forall (fun token => subtractive token = false) l1 ->
  foreach_token flags l1 w = foreach_token flags l2 w.
Proof.
  intros Hcell Hperm Hadd.
  rewrite !(foreach_token_fold _ flags v w Hcell). unfold fold_directives.
  rewrite (fold_left_directive_additive_perm l1 l2 Hperm Hadd). reflexivity.
Qed.

Lemma foreach_token_additive_order_witness :
  let w := set_heap {[ 1%positive := Some 0 ]} initial_world in
  heap w !! 1%positive = Some (Some 0)
  /\ Permutation ["read"; "ddl"; "write"]%string ["write"; "read"; "ddl"]%string
  /\ Forall (fun token => subtractive token = false) ["read"; "ddl"; "write"]%string
  /\ foreach_token 1%positive ["read"; "ddl"; "write"]%string w
       = foreach_token 1%positive ["write"; "read"; "ddl"]%string w.
Proof.
  intros w.
  assert (Hcell : heap w !! 1%positive = Some (Some 0)) by reflexivity.
  assert (Hperm : Permutation ["read"; "ddl"; "write"]%string
                              ["write"; "read"; "ddl"]%string).
  { apply Permutation_sym.
    exact (Permutation_cons_append ["read"; "ddl"]%string "write"%string). }
  assert (Hadd : Forall (fun token => subtractive token = false)
                   ["read"; "ddl"; "write"]%string)
    by (repeat constructor).
  split; [exact Hcell|]. split; [exact Hperm|]. split; [exact Hadd|].
  exact (foreach_token_additive_order 1%positive _ _ 0 w Hcell Hperm Hadd).
Defined.

(** ** Further properties of the two hooks together *)

Lemma check_then_assign_witness :
  let w := mkWorld LOG_ALL (Some "all"%string) true ∅ true None in
  let w' := set_heap {[ 1%positive := Some 40 ]} w in
  check_pgaudit_log "read, write" NULL w = Some (true, Some 1%positive, w')
  /\ auditLogBitmap w' = LOG_ALL
  /\ exists (tokens : list string) (v : Z) (w'' : World),
       SplitIdentifierString (pstrdup "read, write") "," = Some tokens
       /\ fold_directives 0 tokens = Some v
       /\ assign_pgaudit_log "read, write" (Some 1%positive) w' = Some (tt, w'')
       /\ auditLogBitmap w'' = v
       /\ auditLog w'' = auditLog w
       /\ auditLogCatalog w'' = auditLogCatalog w
       /\ heap w'' = heap w'
       /\ malloc_ok w'' = malloc_ok w
       /\ GUC_check_errdetail_string w'' = GUC_check_errdetail_string w.
Proof.
  intros w w'.
  assert (Hrun : check_pgaudit_log "read, write" NULL w = Some (true, Some 1%positive, w'))
    by (vm_compute; reflexivity).
  split; [exact Hrun|]. split; [reflexivity|].
  exact (check_then_assign _ _ _ _ _ Hrun).
Defined.

(** X12: a setting the check hook rejects cannot reach the live bitmap.  When
    the hook is called with a null [*extra] and returns [false], [*extra] is
    still null, and the assign hook called with it returns without changing
    anything; [auditLogBitmap] is what it was before the check. *)
Theorem rejected_setting_not_assigned
    (newVal : string) (extra' : ptr) (w w' : World) :
  check_pgaudit_log newVal NULL w = Some (false, extra', w') ->
  extra' = NULL
  /\ assign_pgaudit_log newVal extra' w' = Some (tt, w')
  /\ auditLogBitmap w' = auditLogBitmap w.
Proof.
  intros Hrun.
  destruct (check_pgaudit_log_cases _ _ _ _ _ _ Hrun)
    as [(_ & _ & -> & ->) | [(tokens & _ & _ & _ & -> & ->)
                           | (tokens & v & _ & _ & _ & Hok & _)]];
    [| | discriminate Hok]; repeat split; reflexivity.
Qed.

Lemma rejected_setting_not_assigned_witness :
  let w := mkWorld LOG_READ (Some "read"%string) true ∅ true None in
  let w' := set_errdetail (Some "List syntax is invalid"%string) w in
  check_pgaudit_log "write," NULL w = Some (false, NULL, w')
  /\ assign_pgaudit_log "write," NULL w' = Some (tt, w')
  /\ auditLogBitmap w' = LOG_READ.
Proof.
  intros w w'.
  assert (Hrun : check_pgaudit_log "write," NULL w = Some (false, NULL, w'))
    by (vm_compute; reflexivity).
  split; [exact Hrun|].
  destruct (rejected_setting_not_assigned _ _ _ _ Hrun) as (_ & Hassign & Hbitmap).
  split; [exact Hassign | exact Hbitmap].
Defined.

(** ** White space only *)

Lemma blank_no_NUL (s : string) : blank s = true -> pstrdup s = s.
Proof.
  induction s as [|c r IH]; cbn [blank pstrdup]; [reflexivity|].
  rewrite andb_true_iff. intros [Hc Hr].
  assert (Hnz : Ascii.eqb c Ascii.zero = false).
  { destruct (Ascii.eqb c Ascii.zero) eqn:E; [|reflexivity].
    apply Ascii.eqb_eq in E. subst c. discriminate Hc. }
  rewrite Hnz, (IH Hr). reflexivity.
Qed.

Lemma skip_space_blank (s : string) : blank s = true -> skip_space s = EmptyString.
Proof.
  induction s as [|c r IH]; cbn [blank skip_space]; [reflexivity|].
  rewrite andb_true_iff. intros [-> Hr]. exact (IH Hr).
Qed.

(** X13: a setting of white space only, of any length, is accepted like the
    empty one: there is no token, the loop body never runs, and the bitmap is
    [LOG_NONE]; the hook returns [false] only when [malloc] fails. *)
Theorem check_pgaudit_log_blank (newVal : string) (extra : ptr) (w : World) :
  blank newVal = true ->
  check_pgaudit_log newVal extra w =
    if malloc_ok w then accepted w LOG_NONE else rejected extra w.
Proof.
  intros Hblank. rewrite check_pgaudit_log_fold, (blank_no_NUL _ Hblank).
  unfold SplitIdentifierString. rewrite (skip_space_blank _ Hblank). reflexivity.
Qed.

Lemma check_pgaudit_log_blank_witness :
  let newVal := String " " (String (ascii_of_nat 9) (String (ascii_of_nat 10) " ")) in
  blank newVal = true
  /\ check_pgaudit_log newVal NULL initial_world = accepted initial_world LOG_NONE.
Proof.
  intros newVal.
  assert (Hblank : blank newVal = true) by reflexivity.
  split; [exact Hblank|].
  exact (check_pgaudit_log_blank newVal NULL initial_world Hblank).
Defined.

(** ** Properties of [_PG_init] *)

(** X14: [_PG_init] defines the two variables once.  When it returns, [inited]
    is set, the variables defined are those there were, followed by
    [pgaudit.log] and [pgaudit.log_catalog] if this was the first call that
    returned, and a further call returns at once and changes nothing, also
    when libraries are no longer being preloaded. *)
Theorem PG_init_once (b b1 : Backend) :
  _PG_init b = Returned b1 ->
  inited b1 = true
  /\ custom_variables b1 =
       (if inited b then custom_variables b
        else custom_variables b
               ++ [ConfigString pgaudit_log_variable;
                   ConfigBool pgaudit_log_catalog_variable])
  /\ (forall preload : bool,
        _PG_init (mkBackend (inited b1) preload (custom_variables b1))
          = Returned (mkBackend (inited b1) preload (custom_variables b1))).
Proof.
  unfold _PG_init. destruct (inited b) eqn:Hinit.
  - intros H. inversion H; subst b1. rewrite Hinit. auto.
  - destruct (process_shared_preload_libraries_in_progress b); cbn [negb];
      [|discriminate].
    intros H. inversion H; subst b1.
    unfold set_inited, define_custom_variable.
    cbn [inited process_shared_preload_libraries_in_progress custom_variables].
    rewrite <- app_assoc. auto.
Qed.

Lemma PG_init_once_witness :
  let b := mkBackend false true [] in
  let b1 := mkBackend true true
              [ConfigString pgaudit_log_variable;
               ConfigBool pgaudit_log_catalog_variable] in
  _PG_init b = Returned b1
  /\ _PG_init b1 = Returned b1
  /\ _PG_init (mkBackend true false (custom_variables b1))
       = Returned (mkBackend true false (custom_variables b1)).
Proof.
  intros b b1.
  assert (Hrun : _PG_init b = Returned b1) by reflexivity.
  destruct (PG_init_once b b1 Hrun) as (_ & _ & Hagain).
  split; [exact Hrun|]. split; [exact (Hagain true) | exact (Hagain false)].
Defined.

(** X15: [_PG_init] raises exactly when it has not returned before and
    libraries are not being preloaded; the error is at level [ERROR] with
    SQLSTATE 55000, and it leaves [inited] unset and defines no variable, so
    that a later call made during preloading still defines both. *)
Theorem PG_init_error (b : Backend) :
  (inited b = false /\ process_shared_preload_libraries_in_progress b = false
   <-> exists elevel sqlerrcode message b',
         _PG_init b = Raised elevel sqlerrcode message b')
  /\ (forall elevel sqlerrcode message b',
        _PG_init b = Raised elevel sqlerrcode message b' ->
        elevel = ERROR
        /\ sqlerrcode = ERRCODE_OBJECT_NOT_IN_PREREQUISITE_STATE
        /\ message = "pgaudit must be loaded via shared_preload_libraries"%string
        /\ b' = b
        /\ _PG_init (mkBackend (inited b') true (custom_variables b'))
           = Returned (mkBackend true true
                         (custom_variables b
                            ++ [ConfigString pgaudit_log_variable;
                                ConfigBool pgaudit_log_catalog_variable]))).
Proof.
  unfold _PG_init.
  destruct (inited b) eqn:Hinit;
    [|destruct (process_shared_preload_libraries_in_progress b) eqn:Hpre];
    cbn [negb].
  - split.
    + split; [intros [H _]; discriminate H | intros (? & ? & ? & ? & H); discriminate H].
    + intros ? ? ? ? H; discriminate H.
  - split.
    + split; [intros [_ H]; discriminate H | intros (? & ? & ? & ? & H); discriminate H].
    + intros ? ? ? ? H; discriminate H.
  - split.
    + split; [intros _; eauto | auto].
    + intros elevel sqlerrcode message b' H. inversion H; subst.
      rewrite Hinit. cbn [negb].
      unfold set_inited, define_custom_variable.
      cbn [inited process_shared_preload_libraries_in_progress custom_variables].
      rewrite <- app_assoc. auto 10.
Qed.

Lemma PG_init_error_witness :
  let b := mkBackend false false [] in
  _PG_init b = Raised ERROR "55000" "pgaudit must be loaded via shared_preload_libraries" b
  /\ inited b = false /\ process_shared_preload_libraries_in_progress b = false
  /\ _PG_init (mkBackend false true [])
       = Returned (mkBackend true true
                     [ConfigString pgaudit_log_variable;
                      ConfigBool pgaudit_log_catalog_variable]).
Proof.
  intros b.
  assert (Hrun : _PG_init b
            = Raised ERROR "55000" "pgaudit must be loaded via shared_preload_libraries" b)
    by reflexivity.
  destruct (proj2 (PG_init_error b) _ _ _ _ Hrun) as (_ & _ & _ & _ & Hlater).
  split; [exact Hrun|]. split; [reflexivity|]. split; [reflexivity|].
  exact Hlater.
Defined.

(** X16: the boot values [_PG_init] gives agree with the statics'
    initialisers.  The check hook it registers for [pgaudit.log] accepts the
    boot value of that variable, [none], whenever [malloc] succeeds, with the
    bitmap [auditLogBitmap] is initialised to, [LOG_NONE]; the assign hook it
    registers, called with what the check produced, returns in a world where
    [auditLogBitmap] is that value and the other statics are what they were;
    the boot value of [pgaudit.log_catalog] is [true], the initial
    [auditLogCatalog]. *)
Theorem PG_init_boot_values (preload_definitions : list config_generic) (b1 : Backend) :
  _PG_init (mkBackend false true preload_definitions) = Returned b1 ->
  exists (log : config_string) (log_catalog : config_bool)
         (check_hook : string -> ptr -> M (bool * ptr))
         (assign_hook : string -> ptr -> M unit),
    custom_variables b1
      = preload_definitions ++ [ConfigString log; ConfigBool log_catalog]
    /\ string_name log = "pgaudit.log"%string
    /\ string_boot_val log = "none"%string
    /\ bool_name log_catalog = "pgaudit.log_catalog"%string
    /\ bool_boot_val log_catalog = true
    /\ auditLogBitmap initial_world = LOG_NONE
    /\ string_check_hook log = Some check_hook
    /\ string_assign_hook log = Some assign_hook
    /\ (forall (extra : ptr) (w : World),
          malloc_ok w = true ->
          check_hook (string_boot_val log) extra w
            = accepted w (auditLogBitmap initial_world)
          /\ forall extra' w',
               check_hook (string_boot_val log) extra w = Some (true, extra', w') ->
               exists w'' : World,
                 assign_hook (string_boot_val log) extra' w' = Some (tt, w'')
                 /\ auditLogBitmap w'' = auditLogBitmap initial_world
                 /\ auditLog w'' = auditLog w
                 /\ auditLogCatalog w'' = auditLogCatalog w
                 /\ heap w'' = heap w')
    /\ bool_boot_val log_catalog = bool_variable log_catalog initial_world
    /\ bool_check_hook log_catalog = None
    /\ bool_assign_hook log_catalog = None.
Proof.
  intros Hrun. unfold _PG_init in Hrun.
  cbn [inited process_shared_preload_libraries_in_progress negb] in Hrun.
  inversion Hrun; subst b1. clear Hrun.
  exists pgaudit_log_variable, pgaudit_log_catalog_variable,
         check_pgaudit_log, assign_pgaudit_log.
  split.
  { unfold set_inited, define_custom_variable.
    cbn [inited process_shared_preload_libraries_in_progress custom_variables].
    rewrite <- app_assoc. reflexivity. }
  do 7 (split; [reflexivity|]).
  split; [|repeat split; reflexivity].
  intros extra w Hm.
  assert (Hcheck : check_pgaudit_log (string_boot_val pgaudit_log_variable) extra w
                   = accepted w (auditLogBitmap initial_world)).
  { cbn [string_boot_val pgaudit_log_variable]. eval_check. reflexivity. }
  split; [exact Hcheck|].
  intros extra' w' Hacc. rewrite Hcheck in Hacc.
  apply accepted_inv in Hacc as (_ & -> & ->).
  destruct (assign_pgaudit_log_commit_fields
              (string_boot_val pgaudit_log_variable) (candidate_cell w)
              (auditLogBitmap initial_world)
              (set_heap (<[candidate_cell w := Some (auditLogBitmap initial_world)]>
                           (heap w)) w))
    as (w'' & Hrun & Hbitmap & Hlog & Hcatalog & Hheap & _ & _).
  { cbn [heap set_heap]. apply lookup_insert_eq. }
  exists w''. split; [exact Hrun|]. split; [exact Hbitmap|].
  split; [exact Hlog|]. split; [exact Hcatalog | exact Hheap].
Qed.

Lemma PG_init_boot_values_witness :
  _PG_init (mkBackend false true [])
    = Returned (mkBackend true true
                  [ConfigString pgaudit_log_variable;
                   ConfigBool pgaudit_log_catalog_variable])
  /\ exists (log : config_string) (log_catalog : config_bool)
            (check_hook : string -> ptr -> M (bool * ptr))
            (assign_hook : string -> ptr -> M unit),
       [ConfigString pgaudit_log_variable; ConfigBool pgaudit_log_catalog_variable]
         = [] ++ [ConfigString log; ConfigBool log_catalog]
       /\ string_name log = "pgaudit.log"%string
       /\ string_boot_val log = "none"%string
       /\ bool_name log_catalog = "pgaudit.log_catalog"%string
       /\ bool_boot_val log_catalog = true
       /\ auditLogBitmap initial_world = LOG_NONE
       /\ string_check_hook log = Some check_hook
       /\ string_assign_hook log = Some assign_hook
       /\ (forall (extra : ptr) (w : World),
             malloc_ok w = true ->
             check_hook (string_boot_val log) extra w
               = accepted w (auditLogBitmap initial_world)
             /\ forall extra' w',
                  check_hook (string_boot_val log) extra w = Some (true, extra', w') ->
                  exists w'' : World,
                    assign_hook (string_boot_val log) extra' w' = Some (tt, w'')
                    /\ auditLogBitmap w'' = auditLogBitmap initial_world
                    /\ auditLog w'' = auditLog w
                    /\ auditLogCatalog w'' = auditLogCatalog w
                    /\ heap w'' = heap w')
       /\ bool_boot_val log_catalog = bool_variable log_catalog initial_world
       /\ bool_check_hook log_catalog = None
       /\ bool_assign_hook log_catalog = None.
Proof.
  assert (Hrun : _PG_init (mkBackend false true [])
    = Returned (mkBackend true true
                  [ConfigString pgaudit_log_variable;
                   ConfigBool pgaudit_log_catalog_variable])) by reflexivity.
  split; [exact Hrun|].
  exact (PG_init_boot_values [] _ Hrun).
Defined.

(** ** The host functions on sample texts *)

Example SplitIdentifierString_list :
  SplitIdentifierString "READ,WRITE,-READ" "," = Some ["read"; "write"; "-read"]%string.
Proof. vm_compute. reflexivity. Qed.

Example SplitIdentifierString_quoted :
  SplitIdentifierString
    (String dquote ("Re" ++ String dquote (String dquote
       ("AD" ++ String dquote " , WRITE, -READ ")))) ","
    = Some [("Re" ++ String dquote "AD"); "write"; "-read"]%string.
Proof. vm_compute. reflexivity. Qed.

Example SplitIdentifierString_empty_name :
  SplitIdentifierString "a,,b" "," = None /\ SplitIdentifierString "a," "," = None.
Proof. split; vm_compute; reflexivity. Qed.

Example SplitIdentifierString_unterminated :
  SplitIdentifierString (String dquote "read") "," = None.
Proof. vm_compute. reflexivity. Qed.

Example SplitIdentifierString_no_name :
  SplitIdentifierString "" "," = Some [] /\ SplitIdentifierString "  " "," = Some [].
Proof. split; vm_compute; reflexivity. Qed.

Example pg_strcasecmp_samples :
  pg_strcasecmp "ddl" "DDL" = 0 /\ pg_strcasecmp "ddlx" "DDL" = 120
  /\ pg_strcasecmp "misc" "MISC_SET" = -95.
Proof. repeat split; vm_compute; reflexivity. Qed.

Example check_pgaudit_log_list_syntax :
  check_pgaudit_log "read,,write" NULL initial_world
    = rejected NULL (set_errdetail (Some "List syntax is invalid"%string) initial_world).
Proof. vm_compute. reflexivity. Qed.

Example check_pgaudit_log_malloc_failure :
  check_pgaudit_log "read" NULL (mkWorld LOG_NONE None true ∅ false None)
    = rejected NULL (mkWorld LOG_NONE None true ∅ false None).
Proof. vm_compute. reflexivity. Qed.
